(** * cleanup_script.py: print-to-Logger migration, verified model

    The script rewrites Dart sources: it inserts the import of the logging
    module after the first import statement and turns debug [print] calls
    into [Logger.d] / [Logger.e] calls with seven ordered [re.sub] rules.

    Modelling choices.
    - File contents, paths and tags are Python [str] values; they are
      lists of characters here.  The patterns of the script compare
      characters for equality only, so the size of the alphabet does not
      matter to them; the case mapping of [capitalize] is the ASCII one.
    - The regular expressions use literals, negated one-character classes
      under [+] or [*] and capturing groups only; [Re] implements that
      fragment with Python's greedy, backtracking, leftmost semantics.
    - The file system is a map from paths to contents; a procedure turns a
      world into a world or raises ([None]), and leaves a trace of what it
      wrote and printed.
    - Paths are POSIX paths. *)

From Stdlib Require Import Ascii String Bool Arith Lia List.
Import ListNotations.

(** ** Texts *)

Definition text := list ascii.

(** A Rocq string literal read as a text. *)
Definition str (s : string) : text := list_ascii_of_string s.

(** The double quote and the newline, which a literal cannot hold. *)
Definition DQ : ascii := "034"%char.
Definition NL : ascii := "010"%char.

(** [s.startswith(p)] *)
Fixpoint startswith (p s : text) : bool :=
  match p, s with
  | [], _ => true
  | a :: p', b :: s' => Ascii.eqb a b && startswith p' s'
  | _ :: _, [] => false
  end.

(** [p in s] *)
Fixpoint contains (p s : text) : bool :=
  startswith p s ||
  match s with
  | [] => false
  | _ :: s' => contains p s'
  end.

(** [s.rfind(c)] for a one-character [c]; [None] stands for Python's [-1]. *)
Fixpoint rfind (c : ascii) (s : text) : option nat :=
  match s with
  | [] => None
  | x :: s' =>
      match rfind c s' with
      | Some i => Some (S i)
      | None => if Ascii.eqb x c then Some 0 else None
      end
  end.

(** [s.replace(old, new)]: every non-overlapping occurrence, left to right.
    [skip] counts the characters of an occurrence still to be dropped. *)
Fixpoint replace_from (old new s : text) (skip : nat) : text :=
  match s with
  | [] => []
  | c :: s' =>
      match skip with
      | S k => replace_from old new s' k
      | 0 =>
          if startswith old s
          then new ++ replace_from old new s' (length old - 1)
          else c :: replace_from old new s' 0
      end
  end.

Definition replace (old new s : text) : text :=
  match old with
  | [] => new ++ flat_map (fun c => c :: new) s
  | _ :: _ => replace_from old new s 0
  end.

(** ** The regular-expression fragment of the script *)

Module Re.

(** One atom of a pattern: a literal, [[^c]+] or [[^c]*]. *)
Inductive atom : Type :=
| Lit (l : text)
| Plus_not (c : ascii)
| Star_not (c : ascii).

(** A pattern is a sequence of atoms, some of them inside a capturing
    group (the script never nests groups). *)
Inductive item : Type :=
| A (a : atom)
| Group (g : list atom).

Definition regex := list item.

Definition atoms (r : regex) : list atom :=
  flat_map (fun it => match it with A a => [a] | Group g => g end) r.

(** Length of the longest prefix of [s] without the character [c]. *)
Fixpoint span (c : ascii) (s : text) : nat :=
  match s with
  | [] => 0
  | x :: s' => if Ascii.eqb x c then 0 else S (span c s')
  end.

(** Greedy repetition: try [f (lo + k)], then [f (lo + k - 1)], ... down
    to [f lo], and keep the first success. *)
Fixpoint backtrack {R : Type} (f : nat -> option R) (lo k : nat) : option R :=
  match k with
  | 0 => f lo
  | S k' =>
      match f (lo + k) with
      | Some r => Some r
      | None => backtrack f lo k'
      end
  end.

Definition cons_seg (seg : text) (r : option (list text * text))
  : option (list text * text) :=
  match r with
  | Some (segs, rest) => Some (seg :: segs, rest)
  | None => None
  end.

(** Anchored backtracking match of a sequence of atoms at the start of
    [s]: the text consumed by each atom, and what is left of [s]. *)
Fixpoint bt (p : list atom) (s : text) : option (list text * text) :=
  match p with
  | [] => Some ([], s)
  | Lit l :: p' =>
      if startswith l s then cons_seg l (bt p' (skipn (length l) s)) else None
  | Plus_not c :: p' =>
      match span c s with
      | 0 => None
      | S n => backtrack (fun k => cons_seg (firstn k s) (bt p' (skipn k s))) 1 n
      end
  | Star_not c :: p' =>
      backtrack (fun k => cons_seg (firstn k s) (bt p' (skipn k s))) 0 (span c s)
  end.

(** The captured groups, from the text consumed by each atom. *)
Fixpoint groups (r : regex) (segs : list text) : list text :=
  match r with
  | [] => []
  | A _ :: r' => groups r' (tl segs)
  | Group g :: r' =>
      concat (firstn (length g) segs) :: groups r' (skipn (length g) segs)
  end.

(** A match object: the groups [\1], [\2], ... and the length of
    [group(0)]. *)
Definition match_at (r : regex) (s : text) : option (list text * nat) :=
  match bt (atoms r) s with
  | Some (segs, _) => Some (groups r segs, length (concat segs))
  | None => None
  end.

(** [re.search]: the leftmost match, as (text before, group(0), text after). *)
Fixpoint search (r : regex) (s : text) : option (text * text * text) :=
  match match_at r s with
  | Some (_, n) => Some ([], firstn n s, skipn n s)
  | None =>
      match s with
      | [] => None
      | c :: s' =>
          match search r s' with
          | Some (pre, m, post) => Some (c :: pre, m, post)
          | None => None
          end
      end
  end.

(** A replacement template: literal text and group references [\n]. *)
Inductive tpiece : Type :=
| T (l : text)
| Ref (n : nat).

Definition template := list tpiece.

Definition expand (t : template) (gs : list text) : text :=
  flat_map (fun p => match p with T l => l | Ref n => nth (n - 1) gs [] end) t.

(** What [re.sub] does with the subject, left to right: a character is
    kept, or a match is replaced by the expanded template. *)
Inductive chunk : Type :=
| Kept (c : ascii)
| Replaced (o : text).

(** [skip] counts the characters of the current match still to be
    consumed.  An empty match is replaced too and the scan moves on by one
    character, as Python 3.7 and later do. *)
Fixpoint scan (r : regex) (t : template) (s : text) (skip : nat) : list chunk :=
  match s with
  | [] =>
      match match_at r [] with
      | Some (gs, _) => [Replaced (expand t gs)]
      | None => []
      end
  | c :: s' =>
      match skip with
      | S k => scan r t s' k
      | 0 =>
          match match_at r s with
          | Some (gs, 0) => Replaced (expand t gs) :: Kept c :: scan r t s' 0
          | Some (gs, S n) => Replaced (expand t gs) :: scan r t s' n
          | None => Kept c :: scan r t s' 0
          end
      end
  end.

Definition render (cs : list chunk) : text :=
  flat_map (fun ch => match ch with Kept c => [c] | Replaced o => o end) cs.

(** The replacement texts a substitution emits, in order. *)
Definition emitted (cs : list chunk) : list text :=
  flat_map (fun ch => match ch with Kept _ => [] | Replaced o => [o] end) cs.

(** [re.sub(r, t, s)] *)
Definition sub (r : regex) (t : template) (s : text) : text :=
  render (scan r t s 0).

End Re.

Import Re.

(** ** Tag derivation: [get_log_tag_from_path] *)

(** ASCII case mapping.  [str.upper] and [str.lower] agree with these on
    ASCII letters and leave every other ASCII character alone. *)
Definition is_lower (c : ascii) : bool :=
  (97 <=? nat_of_ascii c) && (nat_of_ascii c <=? 122).

Definition is_upper (c : ascii) : bool :=
  (65 <=? nat_of_ascii c) && (nat_of_ascii c <=? 90).

Definition upper (c : ascii) : ascii :=
  if is_lower c then ascii_of_nat (nat_of_ascii c - 32) else c.

Definition lower (c : ascii) : ascii :=
  if is_upper c then ascii_of_nat (nat_of_ascii c + 32) else c.

(** [word.capitalize()] *)
Definition capitalize (word : text) : text :=
  match word with
  | [] => []
  | c :: rest => upper c :: map lower rest
  end.

(** [s.split(sep)] for a one-character separator. *)
Fixpoint split (sep : ascii) (s : text) : list text :=
  match s with
  | [] => [[]]
  | c :: s' =>
      if Ascii.eqb c sep then [] :: split sep s'
      else
        match split sep s' with
        | w :: ws => (c :: w) :: ws
        | [] => [[c]]
        end
  end.

(** [os.path.basename] (POSIX): what follows the last slash. *)
Definition basename (p : text) : text :=
  match rfind "/" p with
  | Some i => skipn (S i) p
  | None => p
  end.

(** [os.path.splitext(p)[0]] (POSIX): cut at the last dot, unless that dot
    comes before the last slash or only dots precede it in the file name. *)
Definition splitext_root (p : text) : text :=
  let filenameIndex := match rfind "/" p with Some i => S i | None => 0 end in
  match rfind "." p with
  | Some dotIndex =>
      if (filenameIndex <=? dotIndex) &&
         existsb (fun x => negb (Ascii.eqb x "."))
                 (firstn (dotIndex - filenameIndex) (skipn filenameIndex p))
      then firstn dotIndex p
      else p
  | None => p
  end.

Definition get_log_tag_from_path (file_path : text) : text :=
  let file_name := basename file_path in
  let class_name := splitext_root file_name in
  let words := split "_" class_name in
  concat (map capitalize words).

(** ** The seven substitution rules: [replace_print_with_logger] *)

(** A rule is a pattern and its replacement template.  The tag is spliced
    into the template by [str.format] before [re] reads it; [re] reads a
    tag without a backslash as literal text, and the templates below are
    that reading (see [plain_tag]). *)
Record rule : Type := { pat : regex; repl : text -> template }.

(** [print\('DEBUG: ([^']+)'\);] *)
Definition rule_a : rule :=
  {| pat := [A (Lit (str "print('DEBUG: ")); Group [Plus_not "'"];
             A (Lit (str "');"))];
     repl tag := [T (str "Logger.d('"); T tag; T (str "', '"); Ref 1;
                  T (str "');")] |}.

(** [print\('DEBUG: ([^:]+): \$([^']+)'\);] *)
Definition rule_b : rule :=
  {| pat := [A (Lit (str "print('DEBUG: ")); Group [Plus_not ":"];
             A (Lit (str ": $")); Group [Plus_not "'"]; A (Lit (str "');"))];
     repl tag := [T (str "Logger.d('"); T tag; T (str "', '"); Ref 1;
                  T (str ": $"); Ref 2; T (str "');")] |}.

(** [print\('DEBUG: Error in ([^:]+): \$e'\);] *)
Definition rule_c : rule :=
  {| pat := [A (Lit (str "print('DEBUG: Error in ")); Group [Plus_not ":"];
             A (Lit (str ": $e');"))];
     repl tag := [T (str "Logger.e('"); T tag; T (str "', 'Error in "); Ref 1;
                  T (str "', e);")] |}.

(** [print\('DEBUG: (G): \$e'\);], with G for [[^:]+Error[^:]*] *)
Definition rule_d : rule :=
  {| pat := [A (Lit (str "print('DEBUG: "));
             Group [Plus_not ":"; Lit (str "Error"); Star_not ":"];
             A (Lit (str ": $e');"))];
     repl tag := [T (str "Logger.e('"); T tag; T (str "', '"); Ref 1;
                  T (str "', e);")] |}.

(** [print\(Q(G): \$eQ\);], with Q for the double quote and G for
    [[^:]+Error[^:]*] *)
Definition rule_e : rule :=
  {| pat := [A (Lit (str "print(" ++ [DQ]));
             Group [Plus_not ":"; Lit (str "Error"); Star_not ":"];
             A (Lit (str ": $e" ++ [DQ] ++ str ");"))];
     repl tag := [T (str "Logger.e('"); T tag; T (str "', '"); Ref 1;
                  T (str "', e);")] |}.

(** [print\(Q([^Q]+)Q\);], with Q for the double quote *)
Definition rule_f : rule :=
  {| pat := [A (Lit (str "print(" ++ [DQ])); Group [Plus_not DQ];
             A (Lit ([DQ] ++ str ");"))];
     repl tag := [T (str "Logger.d('"); T tag; T (str "', '"); Ref 1;
                  T (str "');")] |}.

(** [print\(Q([^:]+): \$([^Q]+)Q\);], with Q for the double quote *)
Definition rule_g : rule :=
  {| pat := [A (Lit (str "print(" ++ [DQ])); Group [Plus_not ":"];
             A (Lit (str ": $")); Group [Plus_not DQ];
             A (Lit ([DQ] ++ str ");"))];
     repl tag := [T (str "Logger.d('"); T tag; T (str "', '"); Ref 1;
                  T (str ": $"); Ref 2; T (str "');")] |}.

Definition rules : list rule :=
  [rule_a; rule_b; rule_c; rule_d; rule_e; rule_f; rule_g].

(** The tags for which the templates above are what [re] reads. *)
Definition plain_tag (tag : text) : Prop := ~ In "\"%char tag.

(** One [content = re.sub(pattern, template, content)] statement. *)
Definition apply_rule (log_tag : text) (r : rule) (content : text) : text :=
  sub (pat r) (repl r log_tag) content.

(** The seven statements of [replace_print_with_logger], from the content
    read to the content written back. *)
Definition substitute_prints (content log_tag : text) : text :=
  let content := apply_rule log_tag rule_a content in
  let content := apply_rule log_tag rule_b content in
  let content := apply_rule log_tag rule_c content in
  let content := apply_rule log_tag rule_d content in
  let content := apply_rule log_tag rule_e content in
  let content := apply_rule log_tag rule_f content in
  let content := apply_rule log_tag rule_g content in
  content.

(** ** Files, standard output and exceptions *)

Definition path := text.

Fixpoint text_eqb (a b : text) : bool :=
  match a, b with
  | [], [] => true
  | x :: a', y :: b' => Ascii.eqb x y && text_eqb a' b'
  | _, _ => false
  end.

(** What the script does to the outside, in order. *)
Inductive event : Type :=
| Wrote (p : path) (content : text)
| Printed (line : text).

(** The text files of the working directory and the effects so far. *)
Record world : Type := { files : path -> option text; trace : list event }.

(** [os.path.exists] *)
Definition exists_ (p : path) (w : world) : bool :=
  match files w p with
  | Some _ => true
  | None => false
  end.

Definition write (p : path) (content : text) (w : world) : world :=
  {| files := fun q => if text_eqb q p then Some content else files w q;
     trace := trace w ++ [Wrote p content] |}.

Definition print (line : text) (w : world) : world :=
  {| files := files w; trace := trace w ++ [Printed line] |}.

(** A procedure of the script: the world it leaves, or [None] when an
    exception ends the run ([open] on a missing file). *)
Definition proc := world -> option world.

Definition and_then (f g : proc) : proc :=
  fun w => match f w with
           | Some w' => g w'
           | None => None
           end.

Notation "f ;; g" := (and_then f g) (at level 61, right associativity).

(** [with open(file_path, 'r') as file: content = file.read()], then [k]. *)
Definition reading (file_path : path) (k : text -> proc) : proc :=
  fun w => match files w file_path with
           | Some content => k content w
           | None => None
           end.

Definition replace_print_with_logger (file_path log_tag : text) : proc :=
  reading file_path (fun content w =>
    let content := substitute_prints content log_tag in
    Some (print (str "Replaced print statements in " ++ file_path)
            (write file_path content w))).

(** ** Import insertion: [add_logger_import] *)

Definition logger_import : text :=
  str "import 'package:yetuga/utils/logger.dart';".

(** [(import [^;]+;)\n] *)
Definition import_re : regex :=
  [Group [Lit (str "import "); Plus_not ";"; Lit (str ";")]; A (Lit [NL])].

Definition add_logger_import (file_path : path) : proc :=
  reading file_path (fun content w =>
    if negb (contains logger_import content) then
      match search import_re content with
      | Some (_, last_import, _) =>
          let content :=
            replace last_import (last_import ++ logger_import ++ [NL]) content in
          Some (print (str "Added Logger import to " ++ file_path)
                  (write file_path content w))
      | None => Some w
      end
    else Some w).

Definition process_file (file_path : path) : proc :=
  let log_tag := get_log_tag_from_path file_path in
  add_logger_import file_path ;;
  replace_print_with_logger file_path log_tag.

(** ** The script body *)

Definition key_files : list path :=
  map str
    [ "lib/screens/onboarding/onboarding_screen.dart";
      "lib/screens/onboarding/steps/display_name_step.dart";
      "lib/services/firebase_service.dart";
      "lib/main.dart";
      "lib/models/onboarding_data.dart";
      "lib/providers/auth_provider.dart";
      "lib/providers/onboarding_provider.dart";
      "lib/screens/auth/auth_screen.dart";
      "lib/screens/auth/email_signin_screen.dart";
      "lib/services/storage_service.dart" ]%string.

(** [for file_path in paths: body(file_path)] *)
Fixpoint for_each (body : path -> proc) (paths : list path) : proc :=
  match paths with
  | [] => fun w => Some w
  | file_path :: rest => body file_path ;; for_each body rest
  end.

(** [file_path in key_files] *)
Definition in_key_files (file_path : path) : bool :=
  existsb (text_eqb file_path) key_files.

(** The two loops.  [dart_files] is what
    [glob.glob('lib/**/*.dart', recursive=True)] returns between them; the
    first loop creates and removes no file, so it is taken as given. *)
Definition script (dart_files : list path) : proc :=
  for_each (fun file_path w =>
              if exists_ file_path w then process_file file_path w
              else Some w) key_files ;;
  for_each (fun file_path w =>
              if text_eqb file_path (str "lib/utils/logger.dart")
                 || in_key_files file_path
              then Some w
              else process_file file_path w) dart_files.

(** * Vocabulary of the statements *)

(** What an atom can consume. *)
Inductive seg_ok : atom -> text -> Prop :=
| ok_lit l : seg_ok (Lit l) l
| ok_plus c g : g <> [] -> ~ In c g -> seg_ok (Plus_not c) g
| ok_star c g : ~ In c g -> seg_ok (Star_not c) g.

(** No match of [r] anywhere in [s]. *)
Definition matchless (r : regex) (s : text) : Prop :=
  forall pre u, s = pre ++ u -> match_at r u = None.

(** [sep.join(ws)], used to describe file names. *)
Fixpoint join (sep : ascii) (ws : list text) : text :=
  match ws with
  | [] => []
  | [w] => w
  | w :: ws' => w ++ sep :: join sep ws'
  end.

(** A file name made of words: [dir] is empty or ends with a slash, the
    words are ASCII (the case mapping above is the ASCII one) and hold no
    underscore and no slash, the name is not made of dots only, and the
    extension holds no dot and no slash. *)
Record word_named (dir : text) (ws : list text) (ext : text) : Prop :=
  { dir_slash : dir = [] \/ exists d, dir = d ++ ["/"%char];
    some_word : ws <> [];
    word_ascii : Forall (Forall (fun c => nat_of_ascii c < 128)) ws;
    word_chars : Forall (fun w => ~ In "_"%char w /\ ~ In "/"%char w) ws;
    not_dots : exists c, In c (join "_" ws) /\ c <> "."%char;
    ext_chars : ~ In "."%char ext /\ ~ In "/"%char ext }.

(** Every pattern of the script opens with this text. *)
Definition opener : text := str "print(".

(** No occurrence of [opener] starts inside [o] when [k] follows it. *)
Definition inert (o k : text) : Prop :=
  forall pre u, o = pre ++ u -> u <> [] -> startswith opener (u ++ k) = false.

(** The text holds a match of [import [^;]+;\n]. *)
Definition import_line (content : text) : Prop :=
  exists pre body post,
    body <> [] /\ ~ In ";"%char body /\
    content = pre ++ str "import " ++ body ++ str ";" ++ [NL] ++ post.

(** The world that holds the listed files and has seen no effect yet. *)
Fixpoint lookup (l : list (path * text)) (q : path) : option text :=
  match l with
  | [] => None
  | (p, content) :: l' => if text_eqb q p then Some content else lookup l' q
  end.

Definition world_of (l : list (path * text)) : world :=
  {| files := lookup l; trace := [] |}.

(** What [p] holds once [f] has run. *)
Definition content_after (f : proc) (p : path) (w : world) : option text :=
  match f w with
  | Some w' => files w' p
  | None => None
  end.

(** The files of [w'] are the files of [w], whatever they hold. *)
Definition same_files (w w' : world) : Prop :=
  forall q, exists_ q w' = exists_ q w.

(** The files processed so far, read off the notices that
    [replace_print_with_logger] prints, one at the end of each
    [process_file]. *)
Definition replaced_notice : text := str "Replaced print statements in ".

Definition processed (tr : list event) : list path :=
  flat_map (fun e =>
              match e with
              | Printed line =>
                  if startswith replaced_notice line
                  then [skipn (length replaced_notice) line]
                  else []
              | Wrote _ _ => []
              end) tr.

(** The order in which the script body is claimed to process files. *)
Definition schedule (w : world) (dart_files : list path) : list path :=
  filter (fun p => exists_ p w) key_files ++
  filter (fun p => negb (text_eqb p (str "lib/utils/logger.dart")
                         || in_key_files p)) dart_files.

(** The text that reaches the rule of index [i] (from 0). *)
Definition reaches (i : nat) (content tag : text) : text :=
  fold_left (fun c r => apply_rule tag r c) (firstn i rules) content.

(** The pass without its last rule. *)
Definition six_rules (content tag : text) : text := reaches 6 content tag.

(** The claim that no later rule matches inside a replacement an earlier
    rule has emitted. *)
Definition never_rematched : Prop :=
  forall content tag i j r r' o pre u,
    i < j -> nth_error rules i = Some r -> nth_error rules j = Some r' ->
    In o (emitted (scan (pat r) (repl r tag) (reaches i content tag) 0)) ->
    o = pre ++ u -> match_at (pat r') u = None.

(** No occurrence of [P] starts inside [o] when [k] follows it; [inert] is
    the case of [opener]. *)
Definition quiet (P o k : text) : Prop :=
  forall pre u, o = pre ++ u -> u <> [] -> startswith P (u ++ k) = false.

(** The print calls the rules are written for: [print('DEBUG: msg');],
    [print(Qg1Errorg2: $eQ);] and [print(QmsgQ);], with Q for the double
    quote. *)
Inductive print_call : Type :=
| Debug (msg : text)
| Failure (g1 g2 : text)
| Plain (msg : text).

(** How an error report ends: [: $eQ);]. *)
Definition error_tail : text := str ": $e" ++ [DQ] ++ str ");".

Definition message (c : print_call) : text :=
  match c with
  | Debug msg => msg
  | Failure g1 g2 => g1 ++ str "Error" ++ g2
  | Plain msg => msg
  end.

Definition opening (c : print_call) : text :=
  match c with
  | Debug _ => str "print('DEBUG: "
  | Failure _ _ | Plain _ => str "print(" ++ [DQ]
  end.

Definition closing (c : print_call) : text :=
  match c with
  | Debug _ => str "');"
  | Failure _ _ => error_tail
  | Plain _ => [DQ] ++ str ");"
  end.

(** The call as it stands in the file to migrate. *)
Definition source (c : print_call) : text := opening c ++ message c ++ closing c.

Definition logger_call (c : print_call) : text :=
  match c with
  | Failure _ _ => str "Logger.e('"
  | Debug _ | Plain _ => str "Logger.d('"
  end.

Definition ending (c : print_call) : text :=
  match c with
  | Failure _ _ => str "', e);"
  | Debug _ | Plain _ => str "');"
  end.

(** The [Logger] call that stands for it in the migrated file. *)
Definition migrated (tag : text) (c : print_call) : text :=
  logger_call c ++ tag ++ str "', '" ++ message c ++ ending c.

(** Calls, each followed by a text, written out with [f]. *)
Fixpoint weave (f : print_call -> text) (l : list (print_call * text)) : text :=
  match l with
  | [] => []
  | (c, t) :: l' => f c ++ t ++ weave f l'
  end.

(** What makes the call one that its rule rewrites, [after] being the rest
    of the file: the message holds no [print(]; a DEBUG message is not
    empty and holds no single quote; an error report has colon-free texts
    around [Error], the first one not empty; a plain message is not empty
    and holds no double quote, and no [: $eQ);] comes after the opening of
    the call. *)
Definition call_shape (c : print_call) (after : text) : Prop :=
  contains opener (message c) = false /\
  match c with
  | Debug msg => msg <> [] /\ ~ In "'"%char msg
  | Failure g1 g2 => g1 <> [] /\ ~ In ":"%char g1 /\ ~ In ":"%char g2
  | Plain msg =>
      msg <> [] /\ ~ In DQ msg /\
      contains error_tail (msg ++ [DQ] ++ str ");" ++ after) = false
  end.

(** Calls of these shapes, with texts without [print(] between them. *)
Fixpoint migratable (l : list (print_call * text)) : Prop :=
  match l with
  | [] => True
  | (c, t) :: l' =>
      call_shape c (t ++ weave source l') /\ contains opener t = false /\
      migratable l'
  end.

(** The rules rewrite the DEBUG calls first (rule (a)), then the error
    reports (rule (e)), then the plain calls (rule (f)); [stage n] is a call
    once [n] of these three have run. *)
Definition turn (c : print_call) : nat :=
  match c with
  | Debug _ => 1
  | Failure _ _ => 2
  | Plain _ => 3
  end.

Definition stage (n : nat) (tag : text) (c : print_call) : text :=
  if turn c <=? n then migrated tag c else source c.

(** A file whose imports come first: [head] is the text before the first
    print call and [rest] what follows it.  The head holds the logging
    import and is kept; or it holds the first import statement of the
    file, which does not recur, and gets the logging import after it; or
    the file and the tag hold no [import ] at all and the head is kept. *)
Inductive head_after_import (tag head rest : text) : text -> Prop :=
| import_there :
    contains logger_import head = true ->
    head_after_import tag head rest head
| import_added pre body post :
    head = pre ++ str "import " ++ body ++ str ";" ++ [NL] ++ post ->
    body <> [] -> ~ In ";"%char body ->
    contains (str "import ") pre = false ->
    contains (str "import " ++ body ++ str ";" ++ [NL]) (post ++ rest) = false ->
    contains logger_import (head ++ rest) = false ->
    head_after_import tag head rest
      (pre ++ str "import " ++ body ++ str ";" ++ [NL] ++ logger_import ++ [NL]
       ++ post)
| import_free :
    contains (str "import ") (head ++ rest) = false ->
    contains (str "import ") tag = false ->
    head_after_import tag head rest head.

Ltac invert_segs :=
  repeat match goal with
         | H : Forall2 seg_ok _ _ |- _ => inversion H; clear H; subst
         | H : seg_ok _ _ |- _ => inversion H; clear H; subst
         end.

(** Equal texts, up to the nesting of concatenations. *)
Ltac text_eq :=
  repeat (progress (simpl; rewrite <- ?app_assoc)); reflexivity.

Ltac each_rule H :=
  simpl in H;
  destruct H as [<-|[<-|[<-|[<-|[<-|[<-|[<-|[]]]]]]]].

(** The first character of a pattern is in none of the listed texts. *)
Ltac literal_free :=
  let l := fresh "l" in
  let Hl := fresh "Hl" in
  intros l Hl; simpl in Hl;
  repeat (destruct Hl as [<-|Hl]; [vm_compute; intuition discriminate|]);
  destruct Hl.

(** * Properties *)

(** ** Texts *)

Section TextFacts.

Implicit Types p s t l : text.

Lemma startswith_app l s : startswith l (l ++ s) = true.
Proof.
  induction l as [|a l IH]; simpl; [reflexivity|].
  now rewrite Ascii.eqb_refl.
Qed.

Lemma startswith_split l s : startswith l s = true -> s = l ++ skipn (length l) s.
Proof.
  revert s; induction l as [|a l IH]; intros [|b s]; simpl; try easy.
  intros H; apply andb_prop in H as [Hab Hl].
  apply Ascii.eqb_eq in Hab; subst b.
  now rewrite <- IH.
Qed.

Lemma startswith_iff l s : startswith l s = true <-> exists t, s = l ++ t.
Proof.
  split.
  - intros H; eexists; now apply startswith_split.
  - intros [t ->]; apply startswith_app.
Qed.

Lemma startswith_head a l b s : startswith (a :: l) (b :: s) = true -> a = b.
Proof.
  simpl; intros H; apply andb_prop in H as [H _]; now apply Ascii.eqb_eq.
Qed.

Lemma skipn_exact l s : skipn (length l) (l ++ s) = s.
Proof. induction l; simpl; auto. Qed.

Lemma firstn_exact l s : firstn (length l) (l ++ s) = l.
Proof. induction l; simpl; congruence. Qed.

Lemma contains_unfold p s :
  contains p s =
  startswith p s || match s with [] => false | _ :: s' => contains p s' end.
Proof. destruct s; reflexivity. Qed.

(** [p in s] holds exactly when [s] splits around a copy of [p]. *)
Lemma contains_iff p s :
  contains p s = true <-> exists pre post, s = pre ++ p ++ post.
Proof.
  split.
  - induction s as [|c s IH]; simpl; intros H; apply orb_prop in H as [H|H].
    + apply startswith_iff in H as [t ->]; now exists [], t.
    + discriminate.
    + apply startswith_iff in H as [t ->]; now exists [], t.
    + destruct (IH H) as (pre & post & ->); now exists (c :: pre), post.
  - intros (pre & post & ->).
    induction pre as [|c pre IH].
    + simpl app; rewrite contains_unfold, startswith_app; reflexivity.
    + simpl; now rewrite IH, orb_true_r.
Qed.

Lemma contains_false_suffix p pre t :
  contains p (pre ++ t) = false -> startswith p t = false.
Proof.
  intros H; destruct (startswith p t) eqn:E; [|reflexivity].
  apply startswith_iff in E as [x ->].
  assert (contains p (pre ++ p ++ x) = true) by (apply contains_iff; eauto).
  congruence.
Qed.

Lemma text_eqb_eq a b : text_eqb a b = true <-> a = b.
Proof.
  revert b; induction a as [|x a IH]; intros [|y b]; simpl; try easy.
  rewrite andb_true_iff, Ascii.eqb_eq, IH.
  split; [intros [-> ->]; reflexivity | intros [= -> ->]; auto].
Qed.

Lemma text_eqb_refl a : text_eqb a a = true.
Proof. now apply text_eqb_eq. Qed.

End TextFacts.

(** ** The matcher *)

Section MatcherFacts.

Implicit Types (c : ascii) (s m rest : text) (p : list atom).

Lemma span_le c s : span c s <= length s.
Proof.
  induction s as [|x s IH]; simpl; [lia|].
  destruct (Ascii.eqb x c); simpl; lia.
Qed.

Lemma span_app c m rest : ~ In c m -> span c (m ++ rest) = length m + span c rest.
Proof.
  induction m as [|x m IH]; simpl; intros H; [reflexivity|].
  destruct (Ascii.eqb_spec x c) as [->|_]; [tauto|].
  rewrite IH; tauto.
Qed.

Lemma span_stop c m rest : ~ In c m -> span c (m ++ c :: rest) = length m.
Proof.
  intros H; rewrite span_app by assumption.
  simpl; rewrite Ascii.eqb_refl; lia.
Qed.

Lemma span_firstn c s k : k <= span c s -> ~ In c (firstn k s).
Proof.
  revert k; induction s as [|x s IH]; intros [|k]; simpl; try tauto.
  destruct (Ascii.eqb_spec x c) as [->|Hx]; [lia|].
  intros Hk [E|Hin]; [congruence|].
  apply (IH k); [lia|assumption].
Qed.

Lemma span_free c m rest : ~ In c m -> length m <= span c (m ++ rest).
Proof. intros H; rewrite span_app by assumption; lia. Qed.

Section Backtrack.

Variable R : Type.
Variable f : nat -> option R.

Lemma backtrack_first lo k r : f (lo + k) = Some r -> backtrack f lo k = Some r.
Proof.
  destruct k as [|k]; simpl; intros H.
  - now rewrite Nat.add_0_r in H.
  - now rewrite H.
Qed.

Lemma backtrack_inv lo k r :
  backtrack f lo k = Some r -> exists j, lo <= j <= lo + k /\ f j = Some r.
Proof.
  induction k as [|k IH]; simpl.
  - intros H; exists lo; split; [lia|assumption].
  - destruct (f (lo + S k)) eqn:E.
    + intros [= <-]; exists (lo + S k); split; [lia|assumption].
    + intros H; destruct (IH H) as (j & Hj & Hf); exists j; split; [lia|assumption].
Qed.

Lemma backtrack_complete lo k j :
  lo <= j <= lo + k -> f j <> None -> backtrack f lo k <> None.
Proof.
  induction k as [|k IH]; simpl; intros Hj Hf.
  - now replace lo with j by lia.
  - destruct (f (lo + S k)) eqn:E; [discriminate|].
    apply IH; [|assumption].
    destruct (Nat.eq_dec j (lo + S k)) as [->|]; [congruence|lia].
Qed.

End Backtrack.

Lemma cons_seg_inv seg r segs rest :
  cons_seg seg r = Some (segs, rest) ->
  exists segs', segs = seg :: segs' /\ r = Some (segs', rest).
Proof.
  destruct r as [[segs' rest']|]; simpl; [|discriminate].
  intros [= <- <-]; eauto.
Qed.

(** A match splits the subject into the texts its atoms consumed. *)
Lemma bt_sound p : forall s segs rest,
  bt p s = Some (segs, rest) ->
  s = concat segs ++ rest /\ Forall2 seg_ok p segs.
Proof.
  induction p as [|[l|c|c] p IH]; simpl; intros s segs rest H.
  - injection H as <- <-; split; [reflexivity|constructor].
  - destruct (startswith l s) eqn:El; [|discriminate].
    apply cons_seg_inv in H as (segs' & -> & H).
    apply IH in H as [Hs Hok].
    split; [|constructor; [constructor|assumption]].
    simpl; rewrite <- app_assoc, <- Hs; now apply startswith_split.
  - destruct (span c s) as [|n] eqn:En; [discriminate|].
    apply backtrack_inv in H as (j & Hj & H).
    apply cons_seg_inv in H as (segs' & -> & H).
    apply IH in H as [Hs Hok].
    split.
    + simpl; rewrite <- app_assoc, <- Hs; symmetry; apply firstn_skipn.
    + constructor; [|assumption].
      constructor.
      * intros E; apply (f_equal (@length ascii)) in E.
        rewrite length_firstn in E; simpl in E.
        pose proof (span_le c s); lia.
      * apply span_firstn; lia.
  - apply backtrack_inv in H as (j & Hj & H).
    apply cons_seg_inv in H as (segs' & -> & H).
    apply IH in H as [Hs Hok].
    split.
    + simpl; rewrite <- app_assoc, <- Hs; symmetry; apply firstn_skipn.
    + constructor; [|assumption].
      constructor; apply span_firstn; lia.
Qed.

(** Backtracking is exhaustive: a subject that splits along the atoms is
    matched (possibly along another split). *)
Lemma bt_complete p segs : Forall2 seg_ok p segs ->
  forall rest, bt p (concat segs ++ rest) <> None.
Proof.
  induction 1 as [|a seg p segs Ha _ IH]; intros rest; simpl; [discriminate|].
  rewrite <- app_assoc.
  destruct Ha as [l|c g Hne Hc|c g Hc].
  - rewrite startswith_app, skipn_exact.
    specialize (IH rest); destruct (bt p (concat segs ++ rest)) as [[? ?]|];
      simpl; congruence.
  - pose proof (span_free c g (concat segs ++ rest) Hc) as Hsp.
    destruct (span c (g ++ concat segs ++ rest)) as [|n] eqn:En.
    + destruct g; [congruence|simpl in Hsp; lia].
    + apply backtrack_complete with (j := length g).
      * destruct g; [congruence|simpl in *; lia].
      * rewrite firstn_exact, skipn_exact.
        specialize (IH rest); destruct (bt p (concat segs ++ rest)) as [[? ?]|];
          simpl; congruence.
  - pose proof (span_free c g (concat segs ++ rest) Hc) as Hsp.
    apply backtrack_complete with (j := length g); [lia|].
    rewrite firstn_exact, skipn_exact.
    specialize (IH rest); destruct (bt p (concat segs ++ rest)) as [[? ?]|];
      simpl; congruence.
Qed.

(** Greedy success: when the longest run is followed by a match of the
    rest of the pattern, that is the match. *)
Lemma bt_plus_greedy c p m rest segs r :
  m <> [] -> ~ In c m -> span c (m ++ rest) = length m ->
  bt p rest = Some (segs, r) ->
  bt (Plus_not c :: p) (m ++ rest) = Some (m :: segs, r).
Proof.
  intros Hne Hc Hsp Hbt; simpl; rewrite Hsp.
  destruct m as [|x m]; [congruence|]; simpl length.
  apply backtrack_first.
  change (1 + length m) with (length (x :: m)).
  now rewrite firstn_exact, skipn_exact, Hbt.
Qed.

Lemma bt_lit l p rest segs r :
  bt p rest = Some (segs, r) ->
  bt (Lit l :: p) (l ++ rest) = Some (l :: segs, r).
Proof.
  intros Hbt; simpl; now rewrite startswith_app, skipn_exact, Hbt.
Qed.

End MatcherFacts.

(** ** Searching and substituting *)

Section SubFacts.

Variable r : regex.

Lemma match_at_inv s gs n :
  match_at r s = Some (gs, n) ->
  exists segs rest,
    bt (atoms r) s = Some (segs, rest) /\ gs = groups r segs /\
    n = length (concat segs) /\ s = concat segs ++ rest.
Proof.
  unfold match_at; destruct (bt (atoms r) s) as [[segs rest]|] eqn:E; [|discriminate].
  intros [= <- <-]; exists segs, rest.
  now destruct (bt_sound _ _ _ _ E).
Qed.

(** A pattern that starts with a literal matches only where the literal
    stands. *)
Lemma match_at_startswith l p s :
  atoms r = Lit l :: p -> match_at r s <> None -> startswith l s = true.
Proof.
  unfold match_at; intros ->; simpl.
  destruct (startswith l s); [reflexivity|congruence].
Qed.

Lemma matchless_tail [c s] : matchless r (c :: s) -> matchless r s.
Proof. intros H pre u ->; now apply (H (c :: pre)). Qed.

Lemma search_none s : search r s = None <-> matchless r s.
Proof.
  split.
  - induction s as [|c s IH]; simpl.
    + destruct (match_at r []) as [[? ?]|] eqn:E; [discriminate|].
      intros _ pre u Hs; symmetry in Hs; apply app_eq_nil in Hs as [_ ->]; exact E.
    + destruct (match_at r (c :: s)) as [[? ?]|] eqn:E; [discriminate|].
      destruct (search r s) as [[[? ?] ?]|]; [discriminate|].
      intros _ [|x pre] u Hs; simpl in Hs.
      * now subst u.
      * injection Hs as -> ->; now apply (IH eq_refl pre).
  - induction s as [|c s IH]; intros H; simpl.
    + now rewrite (H [] [] eq_refl).
    + rewrite (H [] (c :: s) eq_refl), (IH (matchless_tail H)); reflexivity.
Qed.

(** [re.search] returns the leftmost match. *)
Lemma search_some s pre m post :
  search r s = Some (pre, m, post) ->
  s = pre ++ m ++ post /\
  (exists gs, match_at r (m ++ post) = Some (gs, length m)) /\
  (forall pre' u, s = pre' ++ u -> length pre' < length pre -> match_at r u = None).
Proof.
  revert pre; induction s as [|c s IH]; intros pre; simpl.
  - destruct (match_at r []) as [[gs n]|] eqn:E; [|discriminate].
    intros [= <- <- <-].
    pose proof E as E'.
    apply match_at_inv in E' as (segs & rest & _ & _ & -> & Hs).
    symmetry in Hs; apply app_eq_nil in Hs as [Hc _].
    rewrite Hc in *; simpl.
    repeat split; [eauto | intros; simpl in *; lia].
  - destruct (match_at r (c :: s)) as [[gs n]|] eqn:E.
    + intros [= <- <- <-].
      pose proof E as E'.
      apply match_at_inv in E as (segs & rest & _ & _ & -> & Hs).
      assert (Hn : length (concat segs) <= length (c :: s))
        by (rewrite Hs, length_app; lia).
      rewrite firstn_skipn, length_firstn, Nat.min_l by assumption.
      repeat split; [eauto | intros; simpl in *; lia].
    + destruct (search r s) as [[[pre0 m0] post0]|]; [|discriminate].
      intros [= <- <- <-].
      destruct (IH pre0 eq_refl) as (Hs & Hm & Hleft).
      repeat split; [simpl; congruence | assumption |].
      intros [|x pre'] u Hu Hlen; simpl in *.
      * now subst u.
      * injection Hu as -> ->; apply (Hleft pre'); [reflexivity|lia].
Qed.

Variable t : template.

(** Dropping the rest of a match is the same as scanning what follows it. *)
Lemma scan_skip s k : k <= length s -> scan r t s k = scan r t (skipn k s) 0.
Proof.
  revert k; induction s as [|c s IH]; intros [|k] Hk; simpl in *;
    try reflexivity; try lia.
  apply IH; lia.
Qed.

Lemma sub_matchless s : matchless r s -> sub r t s = s.
Proof.
  unfold sub; induction s as [|c s IH]; intros H; simpl.
  - now rewrite (H [] [] eq_refl).
  - rewrite (H [] (c :: s) eq_refl); simpl.
    now rewrite (IH (matchless_tail H)).
Qed.

(** One step of [re.sub] at a position where the pattern matches a
    non-empty text. *)
Lemma sub_match s gs n :
  match_at r s = Some (gs, S n) ->
  sub r t s = expand t gs ++ sub r t (skipn (S n) s).
Proof.
  intros H; unfold sub.
  pose proof H as H'.
  apply match_at_inv in H' as (segs & rest & _ & _ & Hn & Hs).
  destruct s as [|c s].
  - symmetry in Hs; apply app_eq_nil in Hs as [Hs _]; rewrite Hs in Hn; discriminate.
  - simpl scan; rewrite H; simpl render.
    rewrite scan_skip; [reflexivity|].
    apply (f_equal (@length ascii)) in Hs; rewrite length_app in Hs; simpl in Hs; lia.
Qed.

Lemma sub_no_match c s :
  match_at r (c :: s) = None -> sub r t (c :: s) = c :: sub r t s.
Proof. intros H; unfold sub; simpl; now rewrite H. Qed.

End SubFacts.

(** ** Tag derivation *)

Section TagFacts.

Implicit Types (c : ascii) (s t w : text).

Lemma rfind_absent c s : ~ In c s -> rfind c s = None.
Proof.
  induction s as [|x s IH]; simpl; intros H; [reflexivity|].
  rewrite IH by tauto.
  destruct (Ascii.eqb_spec x c); [tauto|reflexivity].
Qed.

Lemma rfind_last c s t : ~ In c t -> rfind c (s ++ c :: t) = Some (length s).
Proof.
  intros H; induction s as [|x s IH]; simpl.
  - now rewrite rfind_absent, Ascii.eqb_refl.
  - now rewrite IH.
Qed.

Lemma basename_of_dir d name :
  ~ In "/"%char name -> basename (d ++ "/"%char :: name) = name.
Proof.
  intros H; unfold basename; rewrite rfind_last by assumption.
  replace (d ++ "/"%char :: name) with ((d ++ ["/"%char]) ++ name)
    by (rewrite <- app_assoc; reflexivity).
  replace (S (length d)) with (length (d ++ ["/"%char]))
    by (rewrite length_app; simpl; lia).
  apply skipn_exact.
Qed.

Lemma basename_plain name : ~ In "/"%char name -> basename name = name.
Proof. intros H; unfold basename; now rewrite rfind_absent. Qed.

Lemma existsb_not_dot s :
  (exists c, In c s /\ c <> "."%char) ->
  existsb (fun x => negb (Ascii.eqb x ".")) s = true.
Proof.
  intros (c & Hin & Hc); apply existsb_exists; exists c; split; [assumption|].
  destruct (Ascii.eqb_spec c "."); [contradiction|reflexivity].
Qed.

Lemma splitext_root_of stem ext :
  ~ In "/"%char stem -> ~ In "/"%char ext -> ~ In "."%char ext ->
  (exists c, In c stem /\ c <> "."%char) ->
  splitext_root (stem ++ "."%char :: ext) = stem.
Proof.
  intros Hs He Hd Hc; unfold splitext_root.
  assert (Hsl : ~ In "/"%char (stem ++ "."%char :: ext)).
  { rewrite in_app_iff; simpl; intros [H|[H|H]]; [tauto|discriminate|tauto]. }
  rewrite (rfind_absent "/" _ Hsl), (rfind_last "." stem ext Hd); simpl skipn.
  rewrite Nat.sub_0_r, firstn_exact, existsb_not_dot by assumption.
  reflexivity.
Qed.

Lemma split_plain sep w : ~ In sep w -> split sep w = [w].
Proof.
  induction w as [|x w IH]; simpl; intros H; [reflexivity|].
  destruct (Ascii.eqb_spec x sep); [tauto|].
  rewrite IH by tauto; reflexivity.
Qed.

Lemma split_sep sep w rest :
  ~ In sep w -> split sep (w ++ sep :: rest) = w :: split sep rest.
Proof.
  induction w as [|x w IH]; simpl; intros H.
  - now rewrite Ascii.eqb_refl.
  - destruct (Ascii.eqb_spec x sep); [tauto|].
    rewrite IH by tauto; reflexivity.
Qed.

Lemma split_join sep ws :
  ws <> [] -> Forall (fun w => ~ In sep w) ws -> split sep (join sep ws) = ws.
Proof.
  intros Hne H; induction H as [|w ws Hw Hws IH]; [congruence|].
  destruct ws as [|w' ws]; simpl join.
  - now apply split_plain.
  - rewrite split_sep by assumption; f_equal; apply IH; discriminate.
Qed.

Lemma in_join sep ws c : In c (join sep ws) -> c = sep \/ exists w, In w ws /\ In c w.
Proof.
  induction ws as [|w ws IH]; simpl; [tauto|].
  destruct ws as [|w' ws].
  - intros H; right; exists w; auto.
  - rewrite in_app_iff; intros [H|[H|H]].
    + right; exists w; auto.
    + left; congruence.
    + destruct (IH H) as [E|(w0 & Hw0 & Hc)]; [now left|].
      right; exists w0; auto.
Qed.

(** The tag of [dir/w1_w2_..._wn.ext] is the capitalized words, glued. *)
Lemma tag_of_words dir ws ext :
  word_named dir ws ext ->
  get_log_tag_from_path (dir ++ join "_" ws ++ "."%char :: ext) =
  concat (map capitalize ws).
Proof.
  intros [Hdir Hne _ Hws Hdots [Hed Hes]].
  assert (Hstem : ~ In "/"%char (join "_" ws)).
  { intros H; apply in_join in H as [H|(w & Hw & Hc)]; [discriminate|].
    rewrite Forall_forall in Hws; now apply (Hws w Hw). }
  assert (Hname : ~ In "/"%char (join "_" ws ++ "."%char :: ext)).
  { rewrite in_app_iff; simpl; intros [H|[H|H]]; [tauto|discriminate|tauto]. }
  unfold get_log_tag_from_path.
  assert (Hb : basename (dir ++ join "_" ws ++ "."%char :: ext) =
               join "_" ws ++ "."%char :: ext).
  { destruct Hdir as [->|[d ->]].
    - now apply basename_plain.
    - rewrite <- app_assoc; now apply basename_of_dir. }
  rewrite Hb, splitext_root_of, split_join; auto.
  eapply Forall_impl; [|exact Hws]; simpl; tauto.
Qed.

Lemma upper_lower_not_upper c : is_upper (lower c) = false.
Proof.
  destruct c as [[] [] [] [] [] [] [] []]; vm_compute; reflexivity.
Qed.

(** [capitalize] leaves no upper-case letter after the first character. *)
Lemma capitalize_tail w :
  tl (capitalize w) = map lower (tl w) /\
  Forall (fun c => is_upper c = false) (tl (capitalize w)).
Proof.
  destruct w as [|c w]; simpl; [split; constructor|].
  split; [reflexivity|].
  apply Forall_forall; intros x Hx.
  apply in_map_iff in Hx as (y & <- & _); apply upper_lower_not_upper.
Qed.

End TagFacts.

(** ** Where a rule can match *)

Section OpenerFacts.

Implicit Types (o k u g : text).

Lemma startswith_trans a l s :
  startswith a l = true -> startswith l s = true -> startswith a s = true.
Proof.
  intros Ha Hl; apply startswith_iff in Ha as [x ->], Hl as [y ->].
  rewrite <- app_assoc; apply startswith_app.
Qed.

(** A prefix of [u ++ v] lies in [u] or runs over into [v]. *)
Lemma startswith_app_cases p u v :
  startswith p (u ++ v) = true ->
  startswith p u = true \/
  exists p2, p = u ++ p2 /\ p2 <> [] /\ startswith p2 v = true.
Proof.
  revert u; induction p as [|a p IH]; intros u H; [now left|].
  destruct u as [|b u].
  - right; exists (a :: p); repeat split; [discriminate|assumption].
  - simpl in H; apply andb_prop in H as [Hab H].
    apply Ascii.eqb_eq in Hab; subst b.
    destruct (IH u H) as [Hu|(p2 & -> & Hne & Hp2)].
    + left; simpl; now rewrite Ascii.eqb_refl.
    + right; exists p2; auto.
Qed.

Lemma rule_opener r s :
  In r rules -> match_at (pat r) s <> None -> startswith opener s = true.
Proof.
  intros Hin Hm.
  assert (H : exists l p, atoms (pat r) = Lit l :: p /\ startswith opener l = true).
  { simpl in Hin;
    destruct Hin as [<-|[<-|[<-|[<-|[<-|[<-|[<-|[]]]]]]]];
      eexists; eexists; split; reflexivity. }
  destruct H as (l & p & Hat & Hl).
  apply (startswith_trans _ _ _ Hl), (match_at_startswith _ _ _ _ Hat Hm).
Qed.

(** A text without [print(] is left alone by every rule. *)
Lemma apply_rule_no_opener tag r s :
  In r rules -> contains opener s = false -> apply_rule tag r s = s.
Proof.
  intros Hin Hs; apply sub_matchless.
  intros pre u ->.
  destruct (match_at (pat r) u) eqn:E; [|reflexivity].
  assert (Hu : startswith opener u = true) by (apply (rule_opener r); congruence).
  now rewrite (contains_false_suffix _ _ _ Hs) in Hu.
Qed.

Lemma substitute_prints_no_opener tag s :
  contains opener s = false -> substitute_prints s tag = s.
Proof.
  intros Hs; unfold substitute_prints.
  assert (H : forall r, In r rules -> apply_rule tag r s = s)
    by (intros r Hr; now apply apply_rule_no_opener).
  rewrite (H rule_a), (H rule_b), (H rule_c), (H rule_d), (H rule_e),
    (H rule_f), (H rule_g); simpl; tauto.
Qed.

Lemma inert_nil k : inert [] k.
Proof.
  intros pre u H Hu; symmetry in H; apply app_eq_nil in H as [_ ->]; congruence.
Qed.

Lemma inert_app a b k : inert a (b ++ k) -> inert b k -> inert (a ++ b) k.
Proof.
  intros Ha Hb pre u H Hu.
  apply app_eq_app in H as [l [[-> ->]|[-> ->]]].
  - destruct l as [|x l].
    + simpl in *; apply (Hb [] b); [reflexivity|assumption].
    + rewrite <- app_assoc; apply (Ha pre (x :: l)); [reflexivity|discriminate].
  - apply (Hb l u); [reflexivity|assumption].
Qed.

(** Fixed text without the letter [p] starts no [print(]. *)
Lemma inert_no_p a k : ~ In "p"%char a -> inert a k.
Proof.
  intros Ha pre u -> Hu.
  destruct u as [|x u]; [congruence|].
  change (startswith opener ((x :: u) ++ k))
    with (Ascii.eqb "p" x && startswith (str "rint(") (u ++ k)).
  destruct (Ascii.eqb_spec "p" x) as [<-|_]; [|reflexivity].
  exfalso; apply Ha, in_or_app; right; now left.
Qed.

(** Copied text without [print(] starts none either, when the character
    after it is not one of [print(]. *)
Lemma inert_free g k :
  contains opener g = false ->
  (forall c k', k = c :: k' -> ~ In c opener) -> inert g k.
Proof.
  intros Hg Hc pre u -> Hu.
  destruct (startswith opener (u ++ k)) eqn:E; [exfalso|reflexivity].
  apply startswith_app_cases in E as [E|(p2 & Hp & Hne & Hp2)].
  - now rewrite (contains_false_suffix _ _ _ Hg) in E.
  - destruct p2 as [|x p2]; [congruence|].
    destruct k as [|c k]; [discriminate|].
    apply startswith_head in Hp2; subst x.
    apply (Hc c k eq_refl); rewrite Hp; apply in_or_app; right; now left.
Qed.

Lemma nth_free (gs : list text) n :
  Forall (fun g => contains opener g = false) gs ->
  contains opener (nth n gs []) = false.
Proof.
  intros H; revert n; induction H as [|g gs Hg _ IH]; intros [|n]; simpl; auto.
Qed.

Lemma expand_T l t gs : expand (T l :: t) gs = l ++ expand t gs.
Proof. reflexivity. Qed.

Lemma expand_Ref n t gs : expand (Ref n :: t) gs = nth (n - 1) gs [] ++ expand t gs.
Proof. reflexivity. Qed.

Ltac inert_pieces Htag Hn :=
  repeat first
    [ apply inert_nil
    | apply inert_app;
      [ first
          [ solve [apply inert_no_p; vm_compute; intuition discriminate]
          | apply inert_free;
            [ first [exact Htag | apply Hn]
            | let c := fresh "c" in
              let k' := fresh "k" in
              let E := fresh "E" in
              intros c k' E; simpl in E; injection E as <- _;
              vm_compute; intuition discriminate ] ] | ] ].

(** The replacement text of a rule starts no [print(] unless the tag or a
    captured group holds one. *)
Lemma replacement_inert r tag gs k :
  In r rules -> contains opener tag = false ->
  Forall (fun g => contains opener g = false) gs ->
  inert (expand (repl r tag) gs) k.
Proof.
  intros Hin Htag Hgs.
  pose proof (fun n => nth_free gs n Hgs) as Hn.
  each_rule Hin;
    cbv beta iota delta [repl rule_a rule_b rule_c rule_d rule_e rule_f rule_g];
    rewrite ?expand_T, ?expand_Ref;
    inert_pieces Htag Hn.
Qed.

(** A replacement that [re.sub] emits comes from a match in the subject. *)
Lemma emitted_from_match r t s (n : nat) o :
  In o (emitted (scan r t s n)) ->
  exists pre u gs m,
    s = pre ++ u /\ match_at r u = Some (gs, m) /\ o = expand t gs.
Proof.
  revert n; induction s as [|c s IH]; intros n; simpl.
  - destruct (match_at r []) as [[gs m]|] eqn:E; simpl; [|tauto].
    intros [<-|[]]; exists [], [], gs, m; auto.
  - assert (Hs : (exists j, In o (emitted (scan r t s j))) ->
                 exists pre u gs m,
                   c :: s = pre ++ u /\ match_at r u = Some (gs, m) /\
                   o = expand t gs).
    { intros [j H]; apply IH in H as (pre & u & gs & m & -> & Hm & Ho).
      exists (c :: pre), u, gs, m; auto. }
    destruct n as [|n]; [|intros H; apply Hs; eauto].
    destruct (match_at r (c :: s)) as [[gs [|m]]|] eqn:E; simpl.
    + intros [<-|H]; [exists [], (c :: s), gs, 0; auto|apply Hs; eauto].
    + intros [<-|H]; [exists [], (c :: s), gs, (S m); auto|apply Hs; eauto].
    + intros H; apply Hs; eauto.
Qed.

End OpenerFacts.

(** ** Import lines *)

Section ImportFacts.

Lemma import_re_sound s gs n :
  match_at import_re s = Some (gs, n) ->
  exists body post,
    body <> [] /\ ~ In ";"%char body /\
    s = str "import " ++ body ++ str ";" ++ [NL] ++ post /\
    n = length (str "import " ++ body ++ str ";" ++ [NL]).
Proof.
  intros H; apply match_at_inv in H as (segs & rest & Hbt & _ & -> & ->).
  apply bt_sound in Hbt as [_ Hok].
  change (atoms import_re)
    with [Lit (str "import "); Plus_not ";"; Lit (str ";"); Lit [NL]] in Hok.
  invert_segs.
  match goal with Hb : ?body <> [] |- _ => exists body, rest end.
  repeat split; try assumption; simpl; now rewrite <- ?app_assoc.
Qed.

Lemma import_re_complete body post :
  body <> [] -> ~ In ";"%char body ->
  match_at import_re (str "import " ++ body ++ str ";" ++ [NL] ++ post) =
  Some ([str "import " ++ body ++ str ";"],
        length (str "import " ++ body ++ str ";" ++ [NL])).
Proof.
  intros Hne Hb.
  assert (Hbt : bt (atoms import_re)
                  (str "import " ++ body ++ str ";" ++ [NL] ++ post) =
                Some ([str "import "; body; str ";"; [NL]], post)).
  { apply bt_lit, bt_plus_greedy; try assumption.
    - apply (span_stop ";" body ([NL] ++ post) Hb).
    - apply bt_lit, (bt_lit [NL] [] post); reflexivity. }
  unfold match_at; rewrite Hbt; simpl.
  now rewrite <- ?app_assoc.
Qed.

Lemma import_line_search content :
  import_line content <-> search import_re content <> None.
Proof.
  split.
  - intros (pre & body & post & Hne & Hb & ->) H.
    apply search_none in H.
    pose proof (import_re_complete body post Hne Hb) as Hm.
    rewrite (H pre _ eq_refl) in Hm; discriminate.
  - destruct (search import_re content) as [[[pre m] post]|] eqn:E; [|congruence].
    intros _; apply search_some in E as (-> & [gs Hm] & _).
    apply import_re_sound in Hm as (body & post' & Hne & Hb & E & _).
    exists pre, body, post'; repeat split; try assumption; now rewrite E.
Qed.

End ImportFacts.

(** ** Procedures *)

Section ProcFacts.

Implicit Types (w : world) (p q : path).

Lemma same_files_refl w : same_files w w.
Proof. intros q; reflexivity. Qed.

Lemma same_files_trans w1 w2 w3 :
  same_files w1 w2 -> same_files w2 w3 -> same_files w1 w3.
Proof. intros H12 H23 q; now rewrite H23, H12. Qed.

Lemma write_same_files p content w :
  exists_ p w = true -> same_files w (write p content w).
Proof.
  intros Hp q; unfold exists_, write; simpl.
  destruct (text_eqb q p) eqn:E; [|reflexivity].
  apply text_eqb_eq in E; subst q.
  unfold exists_ in Hp; now destruct (files w p).
Qed.

Lemma write_print_same_files p content line w :
  exists_ p w = true -> same_files w (print line (write p content w)).
Proof. intros Hp; exact (write_same_files p content w Hp). Qed.

Lemma exists_read p w : exists_ p w = true <-> exists content, files w p = Some content.
Proof.
  unfold exists_; destruct (files w p); split; eauto; try discriminate.
  intros [? ?]; discriminate.
Qed.

Lemma add_logger_import_runs p w :
  exists_ p w = true ->
  exists w', add_logger_import p w = Some w' /\ same_files w w'.
Proof.
  intros Hp; pose proof Hp as Hr; apply exists_read in Hr as [content Hc].
  unfold add_logger_import, reading; rewrite Hc.
  destruct (negb (contains logger_import content));
    [destruct (search import_re content) as [[[? ?] ?]|]|];
    eexists; split; try reflexivity; try apply same_files_refl.
  now apply write_print_same_files.
Qed.

Lemma replace_print_with_logger_runs p tag w :
  exists_ p w = true ->
  exists w', replace_print_with_logger p tag w = Some w' /\ same_files w w'.
Proof.
  intros Hp; pose proof Hp as Hr; apply exists_read in Hr as [content Hc].
  unfold replace_print_with_logger, reading; rewrite Hc.
  eexists; split; [reflexivity|].
  now apply write_print_same_files.
Qed.

(** On an existing file [process_file] returns, and it creates and removes
    no file. *)
Lemma process_file_runs p w :
  exists_ p w = true ->
  exists w', process_file p w = Some w' /\ same_files w w'.
Proof.
  intros Hp; unfold process_file, and_then.
  destruct (add_logger_import_runs p w Hp) as (w1 & -> & H1).
  destruct (replace_print_with_logger_runs p (get_log_tag_from_path p) w1)
    as (w2 & -> & H2); [now rewrite H1|].
  exists w2; split; [reflexivity|eapply same_files_trans; eassumption].
Qed.

(** The import step does nothing when the import is there or no import
    statement is found. *)
Lemma add_logger_import_skips p content w :
  files w p = Some content ->
  contains logger_import content = true \/ search import_re content = None ->
  add_logger_import p w = Some w.
Proof.
  intros Hc H; unfold add_logger_import, reading; rewrite Hc.
  destruct H as [-> | ->]; [reflexivity|].
  now destruct (negb (contains logger_import content)).
Qed.

Lemma for_each_app body ps qs w :
  for_each body (ps ++ qs) w = (for_each body ps ;; for_each body qs) w.
Proof.
  revert w; induction ps as [|p ps IH]; intros w; simpl; [reflexivity|].
  unfold and_then in *; destruct (body p w) as [w'|]; [|reflexivity].
  apply IH.
Qed.

Lemma for_each_runs ps w0 : Forall (fun p => exists_ p w0 = true) ps ->
  forall w, same_files w0 w ->
  exists w', for_each process_file ps w = Some w' /\ same_files w0 w'.
Proof.
  induction 1 as [|p ps Hp _ IH]; intros w Hw; simpl.
  - exists w; split; [reflexivity|assumption].
  - unfold and_then.
    destruct (process_file_runs p w) as (w1 & -> & H1); [now rewrite Hw|].
    apply IH; eapply same_files_trans; eassumption.
Qed.

(** The first loop processes the priority files that exist, in order. *)
Lemma first_loop w0 ps : forall w, same_files w0 w ->
  for_each (fun file_path w =>
              if exists_ file_path w then process_file file_path w
              else Some w) ps w =
  for_each process_file (filter (fun p => exists_ p w0) ps) w.
Proof.
  induction ps as [|p ps IH]; intros w Hw; simpl; [reflexivity|].
  unfold and_then at 1; rewrite (Hw p).
  destruct (exists_ p w0) eqn:Ep; simpl.
  - unfold and_then.
    destruct (process_file_runs p w) as (w1 & -> & H1); [now rewrite Hw|].
    apply IH; eapply same_files_trans; eassumption.
  - now apply IH.
Qed.

(** The second loop processes the discovered files it does not skip. *)
Lemma second_loop ps : forall w,
  for_each (fun file_path w =>
              if text_eqb file_path (str "lib/utils/logger.dart")
                 || in_key_files file_path
              then Some w
              else process_file file_path w) ps w =
  for_each process_file
    (filter (fun p => negb (text_eqb p (str "lib/utils/logger.dart")
                            || in_key_files p)) ps) w.
Proof.
  induction ps as [|p ps IH]; intros w; cbn [for_each filter]; [reflexivity|].
  unfold and_then at 1; cbv beta.
  destruct (text_eqb p (str "lib/utils/logger.dart") || in_key_files p);
    cbn [negb for_each].
  - apply IH.
  - unfold and_then; destruct (process_file p w); [apply IH|reflexivity].
Qed.

Lemma some_eq (A : Type) (a b : A) : Some a = Some b -> a = b.
Proof. congruence. Qed.

Lemma processed_app tr tr' : processed (tr ++ tr') = processed tr ++ processed tr'.
Proof. apply flat_map_app. Qed.

Lemma processed_wrote tr p content :
  processed (tr ++ [Wrote p content]) = processed tr.
Proof. rewrite processed_app; apply app_nil_r. Qed.

Lemma processed_other tr line :
  startswith replaced_notice line = false ->
  processed (tr ++ [Printed line]) = processed tr.
Proof.
  intros H; rewrite processed_app; unfold processed at 2; cbn [flat_map].
  rewrite H; apply app_nil_r.
Qed.

Lemma processed_replaced tr p :
  processed (tr ++ [Printed (replaced_notice ++ p)]) = processed tr ++ [p].
Proof.
  rewrite processed_app; apply f_equal.
  unfold processed; cbn [flat_map].
  now rewrite startswith_app, skipn_exact.
Qed.

Lemma add_logger_import_trace p w w' :
  add_logger_import p w = Some w' -> processed (trace w') = processed (trace w).
Proof.
  unfold add_logger_import, reading.
  destruct (files w p) as [content|]; [|discriminate].
  destruct (negb (contains logger_import content));
    [destruct (search import_re content) as [[[? ?] ?]|]|];
    intros H; apply some_eq in H; subst w'; try reflexivity.
  unfold print, write; cbn [trace].
  now rewrite processed_other, processed_wrote.
Qed.

Lemma replace_print_with_logger_trace p tag w w' :
  replace_print_with_logger p tag w = Some w' ->
  processed (trace w') = processed (trace w) ++ [p].
Proof.
  unfold replace_print_with_logger, reading.
  destruct (files w p) as [content|]; [|discriminate].
  intros H; apply some_eq in H; subst w'; unfold print, write; cbn [trace].
  change (str "Replaced print statements in ") with replaced_notice.
  now rewrite processed_replaced, processed_wrote.
Qed.

(** Each [process_file] adds its path to the processed files. *)
Lemma process_file_trace p w w' :
  process_file p w = Some w' -> processed (trace w') = processed (trace w) ++ [p].
Proof.
  unfold process_file, and_then.
  destruct (add_logger_import p w) as [w1|] eqn:E; [|discriminate].
  intros H; apply replace_print_with_logger_trace in H.
  apply add_logger_import_trace in E; congruence.
Qed.

Lemma for_each_trace ps : forall w w',
  for_each process_file ps w = Some w' ->
  processed (trace w') = processed (trace w) ++ ps.
Proof.
  induction ps as [|p ps IH]; intros w w'; simpl.
  - intros [= <-]; now rewrite app_nil_r.
  - unfold and_then; destruct (process_file p w) as [w1|] eqn:E; [|discriminate].
    intros H; apply IH in H; apply process_file_trace in E.
    now rewrite H, E, <- app_assoc.
Qed.

Lemma in_key_files_iff p : in_key_files p = true <-> In p key_files.
Proof.
  unfold in_key_files; rewrite existsb_exists; split.
  - intros (q & Hq & E); apply text_eqb_eq in E; now subst.
  - intros H; exists p; split; [assumption|apply text_eqb_refl].
Qed.

Lemma key_files_NoDup : NoDup key_files.
Proof.
  assert (H : forall l : list path,
             (fix nodup (l : list path) : bool :=
                match l with
                | [] => true
                | x :: l' => negb (existsb (text_eqb x) l') && nodup l'
                end) l = true -> NoDup l).
  { induction l as [|x l IH]; intros E; constructor;
      apply andb_prop in E as [E1 E2]; [|now apply IH].
    intros Hin; apply negb_true_iff in E1.
    assert (existsb (text_eqb x) l = true); [|congruence].
    apply existsb_exists; exists x; split; [assumption|apply text_eqb_refl]. }
  apply H; vm_compute; reflexivity.
Qed.

Lemma schedule_NoDup w dart_files : NoDup dart_files -> NoDup (schedule w dart_files).
Proof.
  intros Hd; unfold schedule.
  apply NoDup_app; [apply NoDup_filter, key_files_NoDup|now apply NoDup_filter|].
  intros p Hp Hp'.
  apply filter_In in Hp as [Hp _], Hp' as [_ Hp'].
  apply in_key_files_iff in Hp; rewrite Hp, orb_true_r in Hp'; discriminate.
Qed.

End ProcFacts.

(** ** The substitution rules *)

Section RuleFacts.

Lemma seg_lit l x : seg_ok (Lit l) x -> x = l.
Proof. now inversion 1. Qed.

Lemma seg_plus c x : seg_ok (Plus_not c) x -> x <> [] /\ ~ In c x.
Proof. now inversion 1. Qed.

Lemma segs_cons a p segs :
  Forall2 seg_ok (a :: p) segs ->
  exists seg segs',
    segs = seg :: segs' /\ seg_ok a seg /\ Forall2 seg_ok p segs'.
Proof. inversion 1; subst; eauto. Qed.

Lemma segs_nil segs : Forall2 seg_ok [] segs -> segs = [].
Proof. now inversion 1. Qed.

Lemma seg_star c x : seg_ok (Star_not c) x -> ~ In c x.
Proof. now inversion 1. Qed.

(** Whatever rule (c) matches, rule (b) matches as well; rule (b) runs
    first and rewrites it to a [Logger.d] call. *)
Lemma rule_c_shadowed s :
  match_at (pat rule_c) s <> None -> match_at (pat rule_b) s <> None.
Proof.
  destruct (match_at (pat rule_c) s) as [[gs n]|] eqn:E; [intros _|congruence].
  apply match_at_inv in E as (segs & rest & Hbt & _ & _ & ->).
  apply bt_sound in Hbt as [_ Hok].
  change (atoms (pat rule_c))
    with [Lit (str "print('DEBUG: Error in "); Plus_not ":"; Lit (str ": $e');")]
    in Hok.
  apply segs_cons in Hok as (l1 & segs1 & -> & H1 & Hok).
  apply segs_cons in Hok as (g & segs2 & -> & H2 & Hok).
  apply segs_cons in Hok as (l2 & segs3 & -> & H3 & Hok).
  apply segs_nil in Hok; subst segs3.
  apply seg_lit in H1, H3; subst l1 l2.
  apply seg_plus in H2 as [Hne Hc].
  pose proof (bt_complete (atoms (pat rule_b))
                [str "print('DEBUG: "; str "Error in " ++ g; str ": $";
                 str "e"; str "');"]) as Hb.
  unfold match_at.
  replace (concat [str "print('DEBUG: Error in "; g; str ": $e');"] ++ rest)
    with (concat [str "print('DEBUG: "; str "Error in " ++ g; str ": $";
                  str "e"; str "');"] ++ rest)
    by text_eq.
  destruct (bt (atoms (pat rule_b)) _) as [[? ?]|] eqn:Eb; [discriminate|].
  exfalso; apply (Hb ltac:(repeat constructor; try assumption; try discriminate;
                           [rewrite in_app_iff; intros [H|H];
                            [vm_compute in H; intuition discriminate|contradiction]
                           |vm_compute; intuition discriminate]) rest Eb).
Qed.

(** Rule (d) is shadowed by rule (b) in the same way. *)
Lemma rule_d_shadowed s :
  match_at (pat rule_d) s <> None -> match_at (pat rule_b) s <> None.
Proof.
  destruct (match_at (pat rule_d) s) as [[gs n]|] eqn:E; [intros _|congruence].
  apply match_at_inv in E as (segs & rest & Hbt & _ & _ & ->).
  apply bt_sound in Hbt as [_ Hok].
  change (atoms (pat rule_d))
    with [Lit (str "print('DEBUG: "); Plus_not ":"; Lit (str "Error");
          Star_not ":"; Lit (str ": $e');")] in Hok.
  apply segs_cons in Hok as (l1 & segs1 & -> & H1 & Hok).
  apply segs_cons in Hok as (g & segs2 & -> & H2 & Hok).
  apply segs_cons in Hok as (l2 & segs3 & -> & H3 & Hok).
  apply segs_cons in Hok as (h & segs4 & -> & H4 & Hok).
  apply segs_cons in Hok as (l3 & segs5 & -> & H5 & Hok).
  apply segs_nil in Hok; subst segs5.
  apply seg_lit in H1, H3, H5; subst l1 l2 l3.
  apply seg_plus in H2 as [Hne Hc]; apply seg_star in H4.
  pose proof (bt_complete (atoms (pat rule_b))
                [str "print('DEBUG: "; g ++ str "Error" ++ h; str ": $";
                 str "e"; str "');"]) as Hb.
  unfold match_at.
  replace (concat [str "print('DEBUG: "; g; str "Error"; h; str ": $e');"] ++ rest)
    with (concat [str "print('DEBUG: "; g ++ str "Error" ++ h; str ": $";
                  str "e"; str "');"] ++ rest)
    by text_eq.
  destruct (bt (atoms (pat rule_b)) _) as [[? ?]|] eqn:Eb; [discriminate|].
  exfalso; apply (Hb ltac:(repeat constructor; try assumption; try discriminate;
                           [destruct g; [congruence|discriminate]
                           |rewrite !in_app_iff; intros [H|[H|H]];
                            [contradiction
                            |vm_compute in H; intuition discriminate
                            |contradiction]
                           |vm_compute; intuition discriminate]) rest Eb).
Qed.

(** A text that no pattern matches goes through the pass unchanged. *)
Lemma substitute_prints_matchless content tag :
  Forall (fun r => search (pat r) content = None) rules ->
  substitute_prints content tag = content.
Proof.
  intros H; rewrite Forall_forall in H.
  assert (Hr : forall r, In r rules -> apply_rule tag r content = content).
  { intros r Hr; apply sub_matchless, search_none, H, Hr. }
  unfold substitute_prints.
  rewrite (Hr rule_a), (Hr rule_b), (Hr rule_c), (Hr rule_d), (Hr rule_e),
    (Hr rule_f), (Hr rule_g); simpl; tauto.
Qed.

End RuleFacts.

(** ** [str.replace] and the inserted import *)

Section ReplaceFacts.

Variables old new : text.

Lemma replace_from_skip s k :
  k <= length s -> replace_from old new s k = replace_from old new (skipn k s) 0.
Proof.
  revert k; induction s as [|c s IH]; intros [|k] Hk; simpl in *;
    try reflexivity; try lia.
  apply IH; lia.
Qed.

Lemma replace_from_absent s :
  contains old s = false -> replace_from old new s 0 = s.
Proof.
  induction s as [|c s IH]; intros H; [reflexivity|].
  rewrite contains_unfold in H; apply orb_false_elim in H as [H1 H2].
  cbn [replace_from]; rewrite H1; f_equal; now apply IH.
Qed.

Lemma replace_from_here post :
  old <> [] ->
  replace_from old new (old ++ post) 0 = new ++ replace_from old new post 0.
Proof.
  intros Hne; destruct old as [|a l] eqn:E; [congruence|]; rewrite <- E.
  assert (Hs : old ++ post = a :: l ++ post) by now rewrite E.
  rewrite Hs at 1; cbn [replace_from]; rewrite <- Hs, startswith_app.
  f_equal; rewrite replace_from_skip.
  - f_equal; rewrite E; simpl; rewrite Nat.sub_0_r; apply skipn_exact.
  - rewrite E, length_app; simpl; lia.
Qed.

(** Replacing a text that occurs once. *)
Lemma replace_once pre post :
  old <> [] ->
  (forall pre' post', pre ++ old ++ post = pre' ++ old ++ post' -> pre' = pre) ->
  replace old new (pre ++ old ++ post) = pre ++ new ++ post.
Proof.
  intros Hne Huniq.
  assert (Hr : replace old new (pre ++ old ++ post) =
               replace_from old new (pre ++ old ++ post) 0)
    by (unfold replace; destruct old; [congruence|reflexivity]).
  rewrite Hr; clear Hr.
  assert (Hpost : contains old post = false).
  { destruct (contains old post) eqn:E; [exfalso|reflexivity].
    apply contains_iff in E as (a & b & ->).
    specialize (Huniq (pre ++ old ++ a) b).
    rewrite <- !app_assoc in Huniq; specialize (Huniq eq_refl).
    apply (f_equal (@length ascii)) in Huniq; rewrite !length_app in Huniq.
    destruct old; [congruence|simpl in Huniq; lia]. }
  induction pre as [|c pre IH].
  - simpl; rewrite replace_from_here by assumption.
    now rewrite replace_from_absent.
  - cbn [app replace_from].
    destruct (startswith old (c :: pre ++ old ++ post)) eqn:E.
    + apply startswith_iff in E as [x E].
      specialize (Huniq [] x E); discriminate.
    + f_equal; apply IH.
      intros pre' post' E'; specialize (Huniq (c :: pre') post').
      simpl in Huniq; rewrite E' in Huniq; specialize (Huniq eq_refl).
      now injection Huniq.
Qed.

End ReplaceFacts.

(** When the text of the first import statement occurs once in the file,
    the logging import is inserted once, right after it, and the rest of
    the file is kept. *)
Lemma import_inserted_once p content w pre m post :
  files w p = Some content ->
  contains logger_import content = false ->
  search import_re content = Some (pre, m, post) ->
  (forall pre' post', content = pre' ++ m ++ post' -> pre' = pre) ->
  content_after (add_logger_import p) p w =
  Some (pre ++ m ++ logger_import ++ [NL] ++ post).
Proof.
  intros Hc Hno Hs Huniq.
  unfold content_after, add_logger_import, reading; rewrite Hc, Hno, Hs; simpl.
  rewrite text_eqb_refl; f_equal.
  apply search_some in Hs as (-> & [gs Hm] & _).
  rewrite replace_once; [now rewrite <- !app_assoc| |assumption].
  apply import_re_sound in Hm as (body & post' & _ & _ & E & Hlen).
  intros ->; discriminate.
Qed.

(** * The claims *)

(** ** Tag derivation *)

(** C6: the tag of a path [dir/w1_w2_..._wn.ext] is the base name without
    its extension, split at underscores, each word capitalized (its first
    character upper-cased, its length kept), glued without separator;
    [onboarding_screen.dart] gives [OnboardingScreen] and
    [auth_provider.dart] gives [AuthProvider]; the function is total and
    degenerate names give degenerate tags. *)
Theorem tag_derivation :
  (forall dir ws ext, word_named dir ws ext ->
     get_log_tag_from_path (dir ++ join "_" ws ++ "."%char :: ext) =
     concat (map capitalize ws) /\
     Forall (fun w => hd_error (capitalize w) = option_map upper (hd_error w) /\
                      length (capitalize w) = length w) ws) /\
  get_log_tag_from_path (str "onboarding_screen.dart") = str "OnboardingScreen" /\
  get_log_tag_from_path (str "auth_provider.dart") = str "AuthProvider" /\
  get_log_tag_from_path [] = [] /\
  get_log_tag_from_path (str "___.dart") = [].
Proof.
  split; [|repeat split; reflexivity].
  intros dir ws ext H; split; [now apply tag_of_words|].
  apply Forall_forall; intros [|c w] _; simpl; [tauto|].
  now rewrite length_map.
Qed.

Lemma tag_derivation_witness :
  get_log_tag_from_path (str "lib/providers/auth_provider.dart") =
  str "AuthProvider".
Proof.
  refine (proj1 (proj1 tag_derivation (str "lib/providers/")
                   [str "auth"; str "provider"] (str "dart") _)).
  constructor.
  - right; exists (str "lib/providers"); reflexivity.
  - discriminate.
  - repeat constructor; vm_compute; lia.
  - repeat constructor; vm_compute; intuition discriminate.
  - exists "a"%char; split; [now left|discriminate].
  - split; vm_compute; intuition discriminate.
Defined.

(** C10: within each underscore-separated word every character after the
    first is lower-cased, so no upper-case letter of the name survives
    there: [URL_helper.dart] gives [UrlHelper], not [URLHelper]. *)
Theorem tag_lowercases_word_tails :
  (forall dir ws ext, word_named dir ws ext ->
     exists caps,
       get_log_tag_from_path (dir ++ join "_" ws ++ "."%char :: ext) =
       concat caps /\
       Forall2 (fun w cap => tl cap = map lower (tl w) /\
                             Forall (fun c => is_upper c = false) (tl cap))
               ws caps) /\
  get_log_tag_from_path (str "URL_helper.dart") = str "UrlHelper".
Proof.
  split; [|reflexivity].
  intros dir ws ext H; exists (map capitalize ws); split; [now apply tag_of_words|].
  clear H; induction ws as [|w ws IH]; constructor; [apply capitalize_tail|assumption].
Qed.

Lemma tag_lowercases_word_tails_witness :
  exists caps,
    get_log_tag_from_path (str "lib/URL_helper.dart") = concat caps /\
    Forall2 (fun w cap => tl cap = map lower (tl w) /\
                          Forall (fun c => is_upper c = false) (tl cap))
            [str "URL"; str "helper"] caps.
Proof.
  refine (proj1 tag_lowercases_word_tails (str "lib/")
            [str "URL"; str "helper"] (str "dart") _).
  constructor.
  - right; exists (str "lib"); reflexivity.
  - discriminate.
  - repeat constructor; vm_compute; lia.
  - repeat constructor; vm_compute; intuition discriminate.
  - exists "U"%char; split; [now left|discriminate].
  - split; vm_compute; intuition discriminate.
Defined.

(** ** Import insertion *)

(** C7: on a file without any match of [import ...;] followed by a newline
    the import step changes nothing: no write, no output, same world. *)
Theorem no_import_line_untouched file_path content w :
  files w file_path = Some content ->
  ~ import_line content ->
  add_logger_import file_path w = Some w.
Proof.
  intros Hc Hno; apply (add_logger_import_skips _ content); [assumption|right].
  destruct (search import_re content) eqn:E; [|reflexivity].
  exfalso; apply Hno, import_line_search; congruence.
Qed.

Lemma no_import_line_untouched_witness :
  let w := world_of [(str "lib/main.dart", str "void main() { run(); }")] in
  add_logger_import (str "lib/main.dart") w = Some w.
Proof.
  intros w.
  apply (no_import_line_untouched (str "lib/main.dart")
           (str "void main() { run(); }") w).
  - reflexivity.
  - intros H; apply import_line_search in H; apply H; vm_compute; reflexivity.
Defined.

(** C8: when the logging import already occurs somewhere in the file the
    import step is a no-op: no write, and the world (so the file content)
    is the same before and after. *)
Theorem import_present_noop file_path content pre post w :
  files w file_path = Some content ->
  content = pre ++ logger_import ++ post ->
  add_logger_import file_path w = Some w.
Proof.
  intros Hc Hin; apply (add_logger_import_skips _ content); [assumption|left].
  apply contains_iff; eauto.
Qed.

Lemma import_present_noop_witness :
  let content := str "import 'a.dart';" ++ [NL] ++ logger_import ++ [NL] in
  let w := world_of [(str "lib/main.dart", content)] in
  add_logger_import (str "lib/main.dart") w = Some w.
Proof.
  intros content w.
  apply (import_present_noop (str "lib/main.dart") content
           (str "import 'a.dart';" ++ [NL]) [NL] w); reflexivity.
Defined.

(** C3 (failing input): the file holds an import statement and not the
    logging import, yet the logging import is not inserted exactly once:
    the first import line occurs twice and gets it after each copy. *)
Theorem import_inserted_after_each_copy :
  let p := str "lib/main.dart" in
  let content := str "import 'a.dart';" ++ [NL] ++ str "import 'a.dart';" ++ [NL]
                 ++ str "void main() {}" ++ [NL] in
  contains logger_import content = false /\
  import_line content /\
  content_after (add_logger_import p) p (world_of [(p, content)]) =
  Some (str "import 'a.dart';" ++ [NL] ++ logger_import ++ [NL] ++
        str "import 'a.dart';" ++ [NL] ++ logger_import ++ [NL] ++
        str "void main() {}" ++ [NL]).
Proof.
  intros p content; repeat split; try (vm_compute; reflexivity).
  apply import_line_search; vm_compute; discriminate.
Qed.

(** ** The file set builder *)

(** C5: the script processes the priority paths that exist, in listed
    order, skipping the missing ones without error, then the discovered
    files in discovery order except [lib/utils/logger.dart] and the
    priority paths: it returns, the files it has processed are those of
    the schedule in that order, and no path is processed twice.  (The
    paths [glob] returns exist and are distinct; their tags are read
    literally by [re].) *)
Theorem file_set_builder w dart_files :
  Forall (fun p => exists_ p w = true) dart_files ->
  Forall (fun p => plain_tag (get_log_tag_from_path p)) dart_files ->
  NoDup dart_files ->
  script dart_files w = for_each process_file (schedule w dart_files) w /\
  (exists w', script dart_files w = Some w' /\
              processed (trace w') = processed (trace w) ++ schedule w dart_files) /\
  NoDup (schedule w dart_files).
Proof.
  intros Hex _ Hnd.
  assert (Hs : script dart_files w =
               for_each process_file (schedule w dart_files) w).
  { unfold script, schedule; rewrite for_each_app; unfold and_then.
    rewrite (first_loop w key_files w (same_files_refl w)).
    destruct (for_each process_file _ w); [apply second_loop|reflexivity]. }
  split; [assumption|split; [|now apply schedule_NoDup]].
  rewrite Hs.
  destruct (for_each_runs (schedule w dart_files) w) with (w := w)
    as (w' & Hw' & _); [|apply same_files_refl|].
  - apply Forall_forall; intros p Hp; unfold schedule in Hp.
    apply in_app_or in Hp as [Hp|Hp]; apply filter_In in Hp as [Hp Hq];
      [assumption|].
    rewrite Forall_forall in Hex; now apply Hex.
  - exists w'; split; [assumption|now apply for_each_trace].
Qed.

Lemma file_set_builder_witness :
  let w := world_of [(str "lib/main.dart", str "void main() {}");
                     (str "lib/utils/logger.dart", str "class Logger {}");
                     (str "lib/widgets/user_card.dart", str "class UserCard {}")] in
  let dart_files := [str "lib/widgets/user_card.dart";
                     str "lib/utils/logger.dart";
                     str "lib/main.dart"] in
  schedule w dart_files = [str "lib/main.dart"; str "lib/widgets/user_card.dart"] /\
  script dart_files w = for_each process_file (schedule w dart_files) w /\
  (exists w', script dart_files w = Some w' /\
              processed (trace w') = processed (trace w) ++ schedule w dart_files) /\
  NoDup (schedule w dart_files).
Proof.
  intros w dart_files; split; [reflexivity|].
  apply (file_set_builder w dart_files).
  - repeat constructor.
  - repeat constructor; unfold plain_tag; vm_compute; intuition discriminate.
  - repeat constructor; simpl; intuition discriminate.
Defined.

(** ** The substitution rules *)

(** C1 (failing input): [print('DEBUG: Error in save: $e');] is rewritten
    by rule (a), which runs first, into a [Logger.d] call; the [Logger.e]
    call of rule (c) is not in the output. *)
Theorem error_in_save_becomes_debug :
  let p := str "lib/providers/auth_provider.dart" in
  let w := world_of [(p, str "print('DEBUG: Error in save: $e');")] in
  let output := str "Logger.d('AuthProvider', 'Error in save: $e');" in
  content_after (process_file p) p w = Some output /\
  contains (str "Logger.e('AuthProvider', 'Error in save', e);") output = false /\
  contains (str "print('DEBUG: Error in save: $e');") output = false.
Proof. repeat split; vm_compute; reflexivity. Qed.

(** C4, as stated, fails: rule (a) rewrites
    [print('DEBUG: print(QxQ);');] (Q the double quote) into
    [Logger.d('T', 'print(QxQ);');], and rule (f) then matches the
    [print] call inside that replacement. *)
Lemma later_rule_rematches :
  let content :=
    str "print('DEBUG: print(" ++ [DQ] ++ str "x" ++ [DQ] ++ str ");');" in
  let o := str "Logger.d('T', 'print(" ++ [DQ] ++ str "x" ++ [DQ] ++ str ");');" in
  emitted (scan (pat rule_a) (repl rule_a (str "T")) content 0) = [o] /\
  match_at (pat rule_f) (skipn 15 o) = Some ([str "x"], 11) /\
  substitute_prints content (str "T") =
  str "Logger.d('T', 'Logger.d('T', 'x');');" /\
  ~ never_rematched.
Proof.
  intros content o; repeat split; try (vm_compute; reflexivity).
  intros H.
  specialize (H content (str "T") 0 5 rule_a rule_f o (firstn 15 o) (skipn 15 o)).
  assert (E : match_at (pat rule_f) (skipn 15 o) = None).
  { apply H; [lia|reflexivity|reflexivity| |reflexivity].
    vm_compute; left; reflexivity. }
  vm_compute in E; discriminate.
Qed.

(** C4, amended: the pass is the seven rules applied one after the other,
    each to the whole output of the one before; what a rule emits is its
    template filled with the groups of a match; and no pattern can match
    from a position inside such a replacement unless the tag or a captured
    group holds [print(] itself. *)
Theorem rules_sequential_template_inert content tag :
  plain_tag tag ->
  substitute_prints content tag =
  fold_left (fun c r => apply_rule tag r c) rules content /\
  (forall r s o,
     In r rules -> In o (emitted (scan (pat r) (repl r tag) s 0)) ->
     exists pre u gs m,
       s = pre ++ u /\ match_at (pat r) u = Some (gs, m) /\
       o = expand (repl r tag) gs) /\
  (forall r r' gs pre u rest,
     In r rules -> In r' rules ->
     contains opener tag = false ->
     Forall (fun g => contains opener g = false) gs ->
     expand (repl r tag) gs = pre ++ u -> u <> [] ->
     match_at (pat r') (u ++ rest) = None).
Proof.
  intros _; split; [reflexivity|split].
  - intros r s o _ Ho; now apply emitted_from_match in Ho.
  - intros r r' gs pre u rest Hr Hr' Htag Hgs Ho Hu.
    destruct (match_at (pat r') (u ++ rest)) eqn:E; [exfalso|reflexivity].
    assert (Hop : startswith opener (u ++ rest) = true)
      by (apply (rule_opener r'); congruence).
    now rewrite (replacement_inert r tag gs rest Hr Htag Hgs pre u Ho Hu) in Hop.
Qed.

Lemma rules_sequential_template_inert_witness :
  let tag := str "AuthProvider" in
  let content := str "print('DEBUG: hello');" in
  substitute_prints content tag =
  fold_left (fun c r => apply_rule tag r c) rules content /\
  match_at (pat rule_f)
    (str "hello');" ++ str "print(" ++ [DQ] ++ str "x" ++ [DQ] ++ str ");") = None.
Proof.
  intros tag content.
  assert (Ht : plain_tag tag) by (unfold plain_tag; vm_compute; intuition discriminate).
  destruct (rules_sequential_template_inert content tag Ht) as (Hseq & _ & Hin).
  split; [exact Hseq|].
  apply (Hin rule_a rule_f [str "hello"] (str "Logger.d('AuthProvider', '")).
  - simpl; tauto.
  - simpl; tauto.
  - vm_compute; reflexivity.
  - repeat constructor.
  - reflexivity.
  - discriminate.
Defined.

(** C9, as stated, fails: rule (g) rewrites [print(Qsay \Qhi\Q: $nameQ);]
    (Q the double quote), which the first six rules leave alone. *)
Lemma rule_g_not_redundant :
  let tag := str "AuthProvider" in
  let content := str "print(" ++ [DQ] ++ str "say \" ++ [DQ] ++ str "hi\"
                 ++ [DQ] ++ str ": $name" ++ [DQ] ++ str ");" in
  six_rules content tag = content /\
  substitute_prints content tag =
  str "Logger.d('AuthProvider', 'say \" ++ [DQ] ++ str "hi\" ++ [DQ]
  ++ str ": $name');" /\
  substitute_prints content tag <> six_rules content tag.
Proof.
  intros tag content; repeat split; try (vm_compute; reflexivity).
  vm_compute; discriminate.
Qed.

(** C9, amended: where rule (g) matches with a first group free of double
    quotes, rule (f) matches at the same place over the same extent and
    emits the same [Logger.d] text; rule (g) is the only one to rewrite a
    call whose message holds a double quote before the colon. *)
Theorem rule_g_covered_when_quote_free s tag gs n :
  plain_tag tag ->
  match_at (pat rule_g) s = Some (gs, n) ->
  ~ In DQ (nth 0 gs []) ->
  let msg := nth 0 gs [] ++ str ": $" ++ nth 1 gs [] in
  match_at (pat rule_f) s = Some ([msg], n) /\
  expand (repl rule_f tag) [msg] = expand (repl rule_g tag) gs.
Proof.
  intros _ Hm Hq.
  apply match_at_inv in Hm as (segs & rest & Hbt & -> & -> & ->).
  apply bt_sound in Hbt as [_ Hok].
  change (atoms (pat rule_g))
    with [Lit (str "print(" ++ [DQ]); Plus_not ":"; Lit (str ": $");
          Plus_not DQ; Lit ([DQ] ++ str ");")] in Hok.
  apply segs_cons in Hok as (l1 & segs1 & -> & H1 & Hok).
  apply segs_cons in Hok as (g1 & segs2 & -> & H2 & Hok).
  apply segs_cons in Hok as (l2 & segs3 & -> & H3 & Hok).
  apply segs_cons in Hok as (g2 & segs4 & -> & H4 & Hok).
  apply segs_cons in Hok as (l3 & segs5 & -> & H5 & Hok).
  apply segs_nil in Hok; subst segs5.
  apply seg_lit in H1, H3, H5; subst l1 l2 l3.
  apply seg_plus in H2 as [Hne1 Hc1], H4 as [Hne2 Hq2].
  cbn [groups pat rule_g length firstn skipn tl concat nth] in *.
  rewrite !app_nil_r in *.
  set (msg := g1 ++ str ": $" ++ g2).
  assert (Hmsg : msg <> [] /\ ~ In DQ msg).
  { split; [destruct g1; [congruence|discriminate]|].
    unfold msg; rewrite !in_app_iff; intros [H|[H|H]]; try contradiction.
    vm_compute in H; intuition discriminate. }
  destruct Hmsg as [Hne Hqm].
  assert (E : ((str "print(" ++ [DQ]) ++ g1 ++ str ": $" ++ g2 ++ [DQ] ++ str ");")
              ++ rest =
              (str "print(" ++ [DQ]) ++ msg ++ ([DQ] ++ str ");") ++ rest)
    by (unfold msg; now rewrite <- !app_assoc).
  split.
  - assert (Hbt : bt (atoms (pat rule_f))
                    ((str "print(" ++ [DQ]) ++ msg ++ ([DQ] ++ str ");") ++ rest) =
                  Some ([str "print(" ++ [DQ]; msg; [DQ] ++ str ");"], rest)).
    { apply bt_lit, bt_plus_greedy; try assumption.
      - apply (span_stop DQ msg (str ");" ++ rest) Hqm).
      - apply (bt_lit ([DQ] ++ str ");") [] rest); reflexivity. }
    unfold match_at; rewrite E, Hbt.
    cbn [groups pat rule_f length firstn skipn tl concat].
    rewrite !app_nil_r; unfold msg; now rewrite <- !app_assoc.
  - cbv beta iota delta [repl rule_f rule_g].
    rewrite !expand_T, !expand_Ref; cbn [nth Nat.sub].
    unfold msg; now rewrite <- !app_assoc.
Qed.

Lemma rule_g_covered_when_quote_free_witness :
  let s := str "print(" ++ [DQ] ++ str "Loaded: $count" ++ [DQ] ++ str ");" in
  let tag := str "AuthProvider" in
  match_at (pat rule_f) s = Some ([str "Loaded: $count"], 24) /\
  expand (repl rule_f tag) [str "Loaded: $count"] =
  expand (repl rule_g tag) [str "Loaded"; str "count"].
Proof.
  intros s tag.
  apply (rule_g_covered_when_quote_free s tag [str "Loaded"; str "count"] 24).
  - unfold plain_tag; vm_compute; intuition discriminate.
  - vm_compute; reflexivity.
  - vm_compute; intuition discriminate.
Defined.

(** * Further properties of the code *)

(** ** The import step *)

Section MoreImportFacts.

Lemma contains_here p s : contains p (p ++ s) = true.
Proof. apply contains_iff; now exists [], s. Qed.

Lemma contains_cons p c s : contains p s = true -> contains p (c :: s) = true.
Proof. intros H; simpl; now rewrite H, orb_true_r. Qed.

Lemma contains_trans a b c :
  contains a b = true -> contains b c = true -> contains a c = true.
Proof.
  intros Hab Hbc.
  apply contains_iff in Hab as (p1 & q1 & ->), Hbc as (p2 & q2 & ->).
  apply contains_iff; exists (p2 ++ p1), (q1 ++ q2); now rewrite <- !app_assoc.
Qed.

(** Where [old] occurs, [str.replace] puts [new]. *)
Lemma replace_contains old new s :
  old <> [] -> contains old s = true -> contains new (replace old new s) = true.
Proof.
  intros Hne; unfold replace; destruct old as [|a l] eqn:E; [congruence|].
  rewrite <- E; clear Hne.
  induction s as [|c s IH]; intros H.
  - rewrite E in H; discriminate.
  - cbn [replace_from]; destruct (startswith old (c :: s)) eqn:Es.
    + apply contains_here.
    + rewrite contains_unfold, Es in H; simpl in H.
      apply contains_cons, IH, H.
Qed.

(** What the import step writes holds the logging import. *)
Lemma inserted_holds_import content pre m post :
  search import_re content = Some (pre, m, post) ->
  contains logger_import
    (replace m (m ++ logger_import ++ [NL]) content) = true.
Proof.
  intros Hs; apply search_some in Hs as (-> & [gs Hm] & _).
  apply import_re_sound in Hm as (body & post' & _ & _ & E & Hlen).
  apply contains_trans with (b := m ++ logger_import ++ [NL]).
  - apply contains_iff; now exists m, [NL].
  - apply replace_contains; [intros ->; discriminate|].
    apply contains_iff; eauto.
Qed.

End MoreImportFacts.

(** X1: on a file that holds an import statement, the import step leaves
    a content that holds the logging import (already there or inserted). *)
Theorem import_step_ensures_import p content w :
  files w p = Some content ->
  import_line content ->
  exists content',
    content_after (add_logger_import p) p w = Some content' /\
    contains logger_import content' = true.
Proof.
  intros Hc Hline.
  unfold content_after, add_logger_import, reading; rewrite Hc.
  destruct (contains logger_import content) eqn:El; simpl.
  - exists content; auto.
  - apply import_line_search in Hline.
    destruct (search import_re content) as [[[pre m] post]|] eqn:Es; [|congruence].
    simpl; rewrite text_eqb_refl; eexists; split; [reflexivity|].
    now apply (inserted_holds_import content pre m post).
Qed.

Lemma import_step_ensures_import_witness :
  let p := str "lib/main.dart" in
  let content := str "import 'dart:io';" ++ [NL] ++ str "void main() {}" ++ [NL] in
  exists content',
    content_after (add_logger_import p) p (world_of [(p, content)]) = Some content' /\
    contains logger_import content' = true.
Proof.
  intros p content.
  apply (import_step_ensures_import p content (world_of [(p, content)])).
  - reflexivity.
  - apply import_line_search; vm_compute; discriminate.
Defined.

(** X2: the import step is idempotent: run again on the world it left, it
    changes nothing (no write, no output). *)
Theorem import_step_idempotent p w w1 :
  add_logger_import p w = Some w1 -> add_logger_import p w1 = Some w1.
Proof.
  unfold add_logger_import at 1; unfold reading.
  destruct (files w p) as [content|] eqn:Hc; [|discriminate].
  destruct (contains logger_import content) eqn:El; simpl.
  - intros H; apply some_eq in H; subst w1.
    apply (add_logger_import_skips p content); auto.
  - destruct (search import_re content) as [[[pre m] post]|] eqn:Es.
    + intros H; apply some_eq in H; subst w1.
      eapply add_logger_import_skips.
      * simpl; rewrite text_eqb_refl; reflexivity.
      * left; now apply (inserted_holds_import content pre m post).
    + intros H; apply some_eq in H; subst w1.
      apply (add_logger_import_skips p content); auto.
Qed.

Lemma import_step_idempotent_witness :
  let p := str "lib/main.dart" in
  let content := str "import 'dart:io';" ++ [NL] ++ str "void main() {}" ++ [NL] in
  exists w1,
    add_logger_import p (world_of [(p, content)]) = Some w1 /\
    files w1 p = Some (str "import 'dart:io';" ++ [NL] ++ logger_import ++ [NL]
                       ++ str "void main() {}" ++ [NL]) /\
    add_logger_import p w1 = Some w1.
Proof.
  intros p content.
  eexists; split; [reflexivity|split; [vm_compute; reflexivity|]].
  apply (import_step_idempotent p (world_of [(p, content)])); reflexivity.
Defined.

Section FirstImportFacts.

(** [re.search] finds a match where none starts earlier. *)
Lemma search_at r pre m post gs :
  (forall pre' u, pre = pre' ++ u -> u <> [] -> match_at r (u ++ m ++ post) = None) ->
  match_at r (m ++ post) = Some (gs, length m) ->
  search r (pre ++ m ++ post) = Some (pre, m, post).
Proof.
  intros Hpre Hm; induction pre as [|c pre IH].
  - simpl app.
    assert (E : search r (m ++ post) =
                Some ([], firstn (length m) (m ++ post), skipn (length m) (m ++ post)))
      by (destruct (m ++ post); simpl; rewrite Hm; reflexivity).
    now rewrite E, firstn_exact, skipn_exact.
  - pose proof (Hpre [] (c :: pre) eq_refl ltac:(discriminate)) as H0.
    cbn [app] in H0; cbn [app search]; rewrite H0.
    rewrite IH; [reflexivity|].
    intros pre' u -> Hu; now apply (Hpre (c :: pre')).
Qed.

(** [str.replace] at the first occurrence, when there is no other. *)
Lemma replace_first old new pre post :
  old <> [] ->
  (forall pre' u, pre = pre' ++ u -> u <> [] ->
                  startswith old (u ++ old ++ post) = false) ->
  contains old post = false ->
  replace old new (pre ++ old ++ post) = pre ++ new ++ post.
Proof.
  intros Hne Hpre Hpost.
  assert (Hr : replace old new (pre ++ old ++ post) =
               replace_from old new (pre ++ old ++ post) 0)
    by (unfold replace; destruct old; [congruence|reflexivity]).
  rewrite Hr; clear Hr.
  induction pre as [|c pre IH].
  - simpl; rewrite replace_from_here by assumption.
    now rewrite replace_from_absent.
  - pose proof (Hpre [] (c :: pre) eq_refl ltac:(discriminate)) as H0.
    cbn [app] in H0; cbn [app replace_from]; rewrite H0.
    f_equal; apply IH.
    intros pre' u -> Hu; now apply (Hpre (c :: pre')).
Qed.

(** Before the first [import ] of a text none starts, even astride. *)
Lemma no_import_before pre k u pre' :
  contains (str "import ") pre = false ->
  pre = pre' ++ u -> u <> [] ->
  startswith (str "import ") (u ++ str "import " ++ k) = false.
Proof.
  intros Hpre -> Hu.
  destruct (startswith (str "import ") (u ++ str "import " ++ k)) eqn:E;
    [exfalso|reflexivity].
  apply startswith_app_cases in E as [E|(p2 & Hp & Hne & Hp2)].
  - now rewrite (contains_false_suffix _ _ _ Hpre) in E.
  - destruct u as [|a [|b [|c [|d [|e [|f [|g u]]]]]]]; try congruence;
      simpl in Hp; injection Hp as; subst;
      try (vm_compute in Hp2; discriminate).
    all: try match goal with H : [] = _ ++ _ |- _ =>
               symmetry in H; apply app_eq_nil in H as [_ H]; congruence end.
Qed.

End FirstImportFacts.

(** The logging import goes after a first import statement that does not recur. *)
Lemma first_import_gets_logger p w pre body rest :
  let m := str "import " ++ body ++ str ";" ++ [NL] in
  files w p = Some (pre ++ m ++ rest) ->
  body <> [] -> ~ In ";"%char body ->
  contains (str "import ") pre = false ->
  contains m rest = false ->
  contains logger_import (pre ++ m ++ rest) = false ->
  content_after (add_logger_import p) p w =
  Some (pre ++ m ++ logger_import ++ [NL] ++ rest).
Proof.
  intros m Hc Hne Hb Hpre Hrest Hno.
  assert (Hbefore : forall pre' u, pre = pre' ++ u -> u <> [] ->
                      startswith (str "import ") (u ++ m ++ rest) = false).
  { intros pre' u E Hu; unfold m; rewrite <- app_assoc.
    now apply (no_import_before pre _ u pre'). }
  assert (Hs : search import_re (pre ++ m ++ rest) = Some (pre, m, rest)).
  { apply search_at with (gs := [str "import " ++ body ++ str ";"]).
    - intros pre' u E Hu.
      destruct (match_at import_re (u ++ m ++ rest)) eqn:Em; [exfalso|reflexivity].
      assert (H : startswith (str "import ") (u ++ m ++ rest) = true).
      { apply (match_at_startswith import_re (str "import ")
                 [Plus_not ";"; Lit (str ";"); Lit [NL]]); [reflexivity|congruence]. }
      now rewrite (Hbefore pre' u E Hu) in H.
    - pose proof (import_re_complete body rest Hne Hb) as H.
      unfold m; rewrite <- !app_assoc; exact H. }
  unfold content_after, add_logger_import, reading; rewrite Hc, Hno, Hs.
  cbn [negb files write print]; rewrite text_eqb_refl; f_equal.
  rewrite replace_first; [now rewrite <- !app_assoc | discriminate | | assumption].
  intros pre' u E Hu.
  destruct (startswith m (u ++ m ++ rest)) eqn:Em; [exfalso|reflexivity].
  assert (H : startswith (str "import ") (u ++ m ++ rest) = true).
  { apply (startswith_trans _ m); [apply startswith_app|assumption]. }
  now rewrite (Hbefore pre' u E Hu) in H.
Qed.

(** X3: when the first [import ] of the file opens a complete import
    statement [m] that does not recur after it, and the logging import is
    absent, the step inserts the logging import once, right after [m] -
    after the first import statement, not the last - and keeps the rest. *)
Theorem import_after_first_import p w pre body rest :
  let m := str "import " ++ body ++ str ";" ++ [NL] in
  files w p = Some (pre ++ m ++ rest) ->
  body <> [] -> ~ In ";"%char body ->
  contains (str "import ") pre = false ->
  contains m rest = false ->
  contains logger_import (pre ++ m ++ rest) = false ->
  content_after (add_logger_import p) p w =
  Some (pre ++ m ++ logger_import ++ [NL] ++ rest).
Proof. exact (first_import_gets_logger p w pre body rest). Qed.

Lemma import_after_first_import_witness :
  let p := str "lib/main.dart" in
  let content := str "// entry point" ++ [NL] ++ str "import 'dart:io';" ++ [NL]
                 ++ str "import 'app.dart';" ++ [NL] ++ str "void main() {}" ++ [NL] in
  content_after (add_logger_import p) p (world_of [(p, content)]) =
  Some (str "// entry point" ++ [NL] ++ str "import 'dart:io';" ++ [NL]
        ++ logger_import ++ [NL]
        ++ str "import 'app.dart';" ++ [NL] ++ str "void main() {}" ++ [NL]).
Proof.
  intros p content.
  apply (import_after_first_import p (world_of [(p, content)])
           (str "// entry point" ++ [NL]) (str "'dart:io'")
           (str "import 'app.dart';" ++ [NL] ++ str "void main() {}" ++ [NL])).
  - reflexivity.
  - discriminate.
  - vm_compute; intuition discriminate.
  - vm_compute; reflexivity.
  - vm_compute; reflexivity.
  - vm_compute; reflexivity.
Defined.

(** ** One print call in a text *)

Section SingleCallFacts.

Implicit Types (tag pre s post msg o k u : text) (r : rule).

Lemma inert_contains o : inert o [] -> contains opener o = false.
Proof.
  intros H; destruct (contains opener o) eqn:E; [exfalso|reflexivity].
  apply contains_iff in E as (pre & post & ->).
  specialize (H pre (opener ++ post) eq_refl ltac:(discriminate)).
  now rewrite app_nil_r, startswith_app in H.
Qed.

Lemma contains_inert o : contains opener o = false -> inert o [].
Proof. intros H; apply inert_free; [assumption|discriminate]. Qed.

(** Before a [print(] no other one starts, even astride. *)
Lemma inert_before_opener pre k :
  contains opener pre = false -> inert pre (opener ++ k).
Proof.
  intros Hpre pre' u -> Hu.
  destruct (startswith opener (u ++ opener ++ k)) eqn:E; [exfalso|reflexivity].
  apply startswith_app_cases in E as [E|(p2 & Hp & Hne & Hp2)].
  - now rewrite (contains_false_suffix _ _ _ Hpre) in E.
  - destruct u as [|a [|b [|c [|d [|e [|f u]]]]]]; try congruence;
      simpl in Hp; injection Hp as; subst;
      try (vm_compute in Hp2; discriminate).
    all: try match goal with H : [] = _ ++ _ |- _ =>
               symmetry in H; apply app_eq_nil in H as [_ H]; congruence end.
Qed.

Lemma apply_rule_through tag r pre k :
  In r rules -> inert pre k ->
  apply_rule tag r (pre ++ k) = pre ++ apply_rule tag r k.
Proof.
  intros Hr Hpre; unfold apply_rule.
  induction pre as [|c pre IH]; [reflexivity|].
  cbn [app]; rewrite sub_no_match.
  - f_equal; apply IH; intros pre' u -> Hu; now apply (Hpre (c :: pre')).
  - destruct (match_at (pat r) (c :: pre ++ k)) eqn:E; [exfalso|reflexivity].
    assert (H : startswith opener ((c :: pre) ++ k) = true)
      by (apply (rule_opener r); [assumption|cbn [app]; congruence]).
    now rewrite (Hpre [] (c :: pre) eq_refl) in H.
Qed.

(** The rule that matches the call rewrites it and nothing else. *)
Lemma apply_rule_fire tag r pre s post gs :
  In r rules -> inert pre (s ++ post) ->
  match_at (pat r) (s ++ post) = Some (gs, length s) -> s <> [] ->
  contains opener post = false ->
  apply_rule tag r (pre ++ s ++ post) = pre ++ expand (repl r tag) gs ++ post.
Proof.
  intros Hr Hpre Hm Hs Hpost.
  rewrite apply_rule_through by assumption; f_equal.
  destruct s as [|c s]; [congruence|].
  unfold apply_rule; rewrite (sub_match _ _ _ gs (length s)) by exact Hm.
  change (S (length s)) with (length (c :: s)); rewrite skipn_exact; f_equal.
  now apply (apply_rule_no_opener tag r).
Qed.

(** A rule that does not match the call leaves the text alone. *)
Lemma apply_rule_skip tag r pre c s post :
  In r rules -> inert pre ((c :: s) ++ post) ->
  match_at (pat r) ((c :: s) ++ post) = None ->
  inert s post -> contains opener post = false ->
  apply_rule tag r (pre ++ (c :: s) ++ post) = pre ++ (c :: s) ++ post.
Proof.
  intros Hr Hpre Hm Hs Hpost.
  rewrite apply_rule_through by assumption; f_equal.
  unfold apply_rule; cbn [app]; rewrite sub_no_match by exact Hm; f_equal.
  apply (apply_rule_no_opener tag r); [assumption|].
  apply inert_contains, inert_app; [now rewrite app_nil_r|now apply contains_inert].
Qed.

Lemma replacement_starts r tag gs :
  In r rules -> exists k, expand (repl r tag) gs = "L"%char :: k.
Proof. intros Hr; each_rule Hr; eexists; reflexivity. Qed.

(** Once the call is rewritten the text holds no [print(]. *)
Lemma rewritten_no_opener r tag gs pre post :
  In r rules ->
  contains opener tag = false ->
  Forall (fun g => contains opener g = false) gs ->
  contains opener pre = false -> contains opener post = false ->
  contains opener (pre ++ expand (repl r tag) gs ++ post) = false.
Proof.
  intros Hr Htag Hgs Hpre Hpost.
  apply inert_contains, inert_app; [|apply inert_app].
  - apply inert_free; [assumption|].
    destruct (replacement_starts r tag gs Hr) as [k ->].
    intros c k' [= <- _]; vm_compute; intuition discriminate.
  - rewrite app_nil_r; now apply replacement_inert.
  - now apply contains_inert.
Qed.

Lemma match_at_mismatch (r : regex) l (p : list atom) s :
  atoms r = Lit l :: p -> startswith l s = false -> match_at r s = None.
Proof. unfold match_at; intros -> H; simpl; now rewrite H. Qed.

(** Colon-free texts before a colon are determined. *)
Lemma split_at_first (c : ascii) (a : text) : forall (b t1 t2 : text),
  ~ In c a -> ~ In c b -> a ++ c :: t1 = b ++ c :: t2 -> a = b /\ t1 = t2.
Proof.
  induction a as [|x a IH]; intros [|y b] t1 t2 Ha Hb E; simpl in *.
  - now injection E.
  - injection E as -> _; tauto.
  - injection E as -> _; tauto.
  - injection E as -> E; destruct (IH b t1 t2) as [-> ->]; tauto.
Qed.

End SingleCallFacts.

(** Rule (a) rewrites a lone DEBUG call and the later rules leave the result. *)
Lemma debug_call_rewritten tag pre msg post :
  plain_tag tag ->
  msg <> [] -> ~ In "'"%char msg ->
  contains opener tag = false -> contains opener msg = false ->
  contains opener pre = false -> contains opener post = false ->
  substitute_prints (pre ++ str "print('DEBUG: " ++ msg ++ str "');" ++ post) tag =
  pre ++ str "Logger.d('" ++ tag ++ str "', '" ++ msg ++ str "');" ++ post.
Proof.
  intros _ Hne Hq Htag Hmsg Hpre Hpost.
  set (stmt := str "print('DEBUG: " ++ msg ++ str "');").
  assert (Hm : match_at (pat rule_a) (stmt ++ post) = Some ([msg], length stmt)).
  { assert (Hbt : bt (atoms (pat rule_a))
                    (str "print('DEBUG: " ++ msg ++ str "');" ++ post) =
                  Some ([str "print('DEBUG: "; msg; str "');"], post)).
    { apply bt_lit, bt_plus_greedy; try assumption.
      - apply (span_stop "'" msg (str ");" ++ post) Hq).
      - apply (bt_lit (str "');") [] post); reflexivity. }
    unfold match_at, stmt; rewrite <- !app_assoc, Hbt.
    cbn [groups pat rule_a length firstn skipn tl concat].
    now rewrite !app_nil_r. }
  assert (Ha : apply_rule tag rule_a (pre ++ stmt ++ post) =
               pre ++ expand (repl rule_a tag) [msg] ++ post).
  { apply apply_rule_fire; try assumption; try (simpl; tauto); try discriminate.
    unfold stmt; rewrite <- !app_assoc.
    now apply (inert_before_opener pre). }
  assert (Hno : contains opener (pre ++ expand (repl rule_a tag) [msg] ++ post) = false)
    by (apply rewritten_no_opener; try assumption; [simpl; tauto|repeat constructor; assumption]).
  assert (Hr : forall r, In r rules ->
                 apply_rule tag r (pre ++ expand (repl rule_a tag) [msg] ++ post) =
                 pre ++ expand (repl rule_a tag) [msg] ++ post)
    by (intros r Hr; now apply apply_rule_no_opener).
  replace (pre ++ str "print('DEBUG: " ++ msg ++ str "');" ++ post)
    with (pre ++ stmt ++ post) by (unfold stmt; now rewrite <- !app_assoc).
  unfold substitute_prints.
  rewrite Ha, (Hr rule_b), (Hr rule_c), (Hr rule_d), (Hr rule_e), (Hr rule_f),
    (Hr rule_g) by (simpl; tauto).
  cbv beta iota delta [repl rule_a]; rewrite !expand_T, !expand_Ref.
  cbn [nth Nat.sub expand flat_map]; now rewrite <- !app_assoc.
Qed.

(** X4: a call [print('DEBUG: msg');] whose message holds no single quote,
    in a text with no other [print(], is rewritten into
    [Logger.d('tag', 'msg');] and the text around it is kept - also when
    the message reads [Error in ...: $e]. *)
Theorem debug_print_becomes_logger_d tag pre msg post :
  plain_tag tag ->
  msg <> [] -> ~ In "'"%char msg ->
  contains opener tag = false -> contains opener msg = false ->
  contains opener pre = false -> contains opener post = false ->
  substitute_prints (pre ++ str "print('DEBUG: " ++ msg ++ str "');" ++ post) tag =
  pre ++ str "Logger.d('" ++ tag ++ str "', '" ++ msg ++ str "');" ++ post.
Proof. exact (debug_call_rewritten tag pre msg post). Qed.

Ltac inert_piece :=
  first
    [ solve [apply inert_no_p; vm_compute; intuition discriminate]
    | apply inert_free;
      [ assumption
      | let E := fresh "E" in
        intros ? ? E; simpl in E; injection E as <- _;
        vm_compute; intuition discriminate ] ].

Ltac inert_text :=
  repeat (apply inert_app; [inert_piece|]);
  first [apply inert_nil | inert_piece].

(** X5: a double-quoted call [print(Qmsg: $eQ);] (Q the double quote)
    whose colon-free message holds [Error] after at least one character,
    in a text with no other [print(], is rewritten into
    [Logger.e('tag', 'msg', e);] and the text around it is kept. *)
Theorem error_print_becomes_logger_e tag pre g1 g2 post :
  let msg := g1 ++ str "Error" ++ g2 in
  plain_tag tag ->
  g1 <> [] -> ~ In ":"%char g1 -> ~ In ":"%char g2 ->
  contains opener tag = false -> contains opener msg = false ->
  contains opener pre = false -> contains opener post = false ->
  substitute_prints
    (pre ++ str "print(" ++ [DQ] ++ msg ++ str ": $e" ++ [DQ] ++ str ");" ++ post)
    tag =
  pre ++ str "Logger.e('" ++ tag ++ str "', '" ++ msg ++ str "', e);" ++ post.
Proof.
  intros msg _ Hne Hc1 Hc2 Htag Hmsg Hpre Hpost.
  set (body := str "rint(" ++ [DQ] ++ msg ++ str ": $e" ++ [DQ] ++ str ");").
  assert (Hcontent :
            pre ++ str "print(" ++ [DQ] ++ msg ++ str ": $e" ++ [DQ] ++ str ");" ++ post =
            pre ++ ("p"%char :: body) ++ post)
    by (unfold body; cbn [app str list_ascii_of_string]; now rewrite <- !app_assoc).
  assert (Hin : inert pre (("p"%char :: body) ++ post)).
  { change (("p"%char :: body) ++ post)
      with (opener ++ ([DQ] ++ msg ++ str ": $e" ++ [DQ] ++ str ");") ++ post).
    now apply inert_before_opener. }
  assert (Hbody : inert body post) by (unfold body; inert_text).
  assert (Hskip : forall r l p,
             In r rules -> atoms (pat r) = Lit (str "print('DEBUG: " ++ l) :: p ->
             apply_rule tag r (pre ++ ("p"%char :: body) ++ post) =
             pre ++ ("p"%char :: body) ++ post).
  { intros r l p Hr Hat; apply apply_rule_skip; try assumption.
    apply (match_at_mismatch _ _ _ _ Hat); reflexivity. }
  assert (Hcolon : ~ In ":"%char msg).
  { unfold msg; rewrite !in_app_iff; intros [H|[H|H]]; try contradiction.
    vm_compute in H; intuition discriminate. }
  assert (Hm : match_at (pat rule_e) (("p"%char :: body) ++ post) =
               Some ([msg], length ("p"%char :: body))).
  { pose proof (bt_complete (atoms (pat rule_e))
                  [str "print(" ++ [DQ]; g1; str "Error"; g2;
                   str ": $e" ++ [DQ] ++ str ");"]
                  ltac:(repeat constructor; assumption) post) as Hsome.
    assert (Es : concat [str "print(" ++ [DQ]; g1; str "Error"; g2;
                         str ": $e" ++ [DQ] ++ str ");"] ++ post =
                 ("p"%char :: body) ++ post)
      by (unfold body, msg; text_eq).
    rewrite Es in Hsome.
    unfold match_at.
    destruct (bt (atoms (pat rule_e)) (("p"%char :: body) ++ post))
      as [[segs rest]|] eqn:Ebt; [clear Hsome|congruence].
    apply bt_sound in Ebt as [Hs Hok].
    change (atoms (pat rule_e))
      with [Lit (str "print(" ++ [DQ]); Plus_not ":"; Lit (str "Error");
            Star_not ":"; Lit (str ": $e" ++ [DQ] ++ str ");")] in Hok.
    apply segs_cons in Hok as (l1 & segs1 & -> & H1 & Hok).
    apply segs_cons in Hok as (x & segs2 & -> & H2 & Hok).
    apply segs_cons in Hok as (l2 & segs3 & -> & H3 & Hok).
    apply segs_cons in Hok as (y & segs4 & -> & H4 & Hok).
    apply segs_cons in Hok as (l3 & segs5 & -> & H5 & Hok).
    apply segs_nil in Hok; subst segs5.
    apply seg_lit in H1, H3, H5; subst l1 l2 l3.
    apply seg_plus in H2 as [Hnx Hcx]; apply seg_star in H4.
    assert (E : (x ++ str "Error" ++ y) ++ ":"%char :: (str " $e" ++ [DQ] ++ str ");" ++ rest) =
                msg ++ ":"%char :: (str " $e" ++ [DQ] ++ str ");" ++ post)).
    { apply (app_inv_head (str "print(" ++ [DQ])).
      transitivity (("p"%char :: body) ++ post); [rewrite Hs|unfold body]; text_eq. }
    apply split_at_first in E as [Exy Er]; [|idtac|assumption].
    - apply app_inv_head in Er.
      cbn [groups pat rule_e length firstn skipn tl concat].
      rewrite !app_nil_r, Exy; do 2 f_equal.
      apply (f_equal (@length ascii)) in Es.
      unfold body; unfold body in Es; rewrite !length_app in *.
      rewrite <- Exy, !length_app; simpl; lia.
    - rewrite !in_app_iff; intros [H|[H|H]]; try contradiction.
      vm_compute in H; intuition discriminate. }
  assert (He : apply_rule tag rule_e (pre ++ ("p"%char :: body) ++ post) =
               pre ++ expand (repl rule_e tag) [msg] ++ post)
    by (apply apply_rule_fire; try assumption; try (simpl; tauto); discriminate).
  assert (Hno : contains opener (pre ++ expand (repl rule_e tag) [msg] ++ post) = false)
    by (apply rewritten_no_opener; try assumption;
        [simpl; tauto|repeat constructor; assumption]).
  assert (Hr : forall r, In r rules ->
                 apply_rule tag r (pre ++ expand (repl rule_e tag) [msg] ++ post) =
                 pre ++ expand (repl rule_e tag) [msg] ++ post)
    by (intros r Hr; now apply apply_rule_no_opener).
  rewrite Hcontent; unfold substitute_prints.
  rewrite (Hskip rule_a [] _ ltac:(simpl; tauto) eq_refl).
  rewrite (Hskip rule_b [] _ ltac:(simpl; tauto) eq_refl).
  rewrite (Hskip rule_c (str "Error in ") _ ltac:(simpl; tauto) eq_refl).
  rewrite (Hskip rule_d [] _ ltac:(simpl; tauto) eq_refl).
  rewrite He, (Hr rule_f), (Hr rule_g) by (simpl; tauto).
  cbv beta iota delta [repl rule_e]; rewrite !expand_T, !expand_Ref.
  cbn [nth Nat.sub expand flat_map]; now rewrite <- !app_assoc.
Qed.

(** X6: a double-quoted call [print(QmsgQ);] whose message holds no
    double quote, in a text with no other [print(] and no [: $eQ);] after
    the opening, is rewritten into [Logger.d('tag', 'msg');] and the text
    around it is kept. *)
Theorem plain_print_becomes_logger_d tag pre msg post :
  plain_tag tag ->
  msg <> [] -> ~ In DQ msg ->
  contains (str ": $e" ++ [DQ] ++ str ");") (msg ++ [DQ] ++ str ");" ++ post) = false ->
  contains opener tag = false -> contains opener msg = false ->
  contains opener pre = false -> contains opener post = false ->
  substitute_prints (pre ++ str "print(" ++ [DQ] ++ msg ++ [DQ] ++ str ");" ++ post) tag =
  pre ++ str "Logger.d('" ++ tag ++ str "', '" ++ msg ++ str "');" ++ post.
Proof.
  intros _ Hne Hq Htail Htag Hmsg Hpre Hpost.
  set (body := str "rint(" ++ [DQ] ++ msg ++ [DQ] ++ str ");").
  assert (Hcontent :
            pre ++ str "print(" ++ [DQ] ++ msg ++ [DQ] ++ str ");" ++ post =
            pre ++ ("p"%char :: body) ++ post)
    by (unfold body; cbn [app str list_ascii_of_string]; now rewrite <- !app_assoc).
  assert (Hin : inert pre (("p"%char :: body) ++ post)).
  { change (("p"%char :: body) ++ post)
      with (opener ++ ([DQ] ++ msg ++ [DQ] ++ str ");") ++ post).
    now apply inert_before_opener. }
  assert (Hbody : inert body post) by (unfold body; inert_text).
  assert (Hskip : forall r l p,
             In r rules -> atoms (pat r) = Lit (str "print('DEBUG: " ++ l) :: p ->
             apply_rule tag r (pre ++ ("p"%char :: body) ++ post) =
             pre ++ ("p"%char :: body) ++ post).
  { intros r l p Hr Hat; apply apply_rule_skip; try assumption.
    apply (match_at_mismatch _ _ _ _ Hat); reflexivity. }
  assert (He : apply_rule tag rule_e (pre ++ ("p"%char :: body) ++ post) =
               pre ++ ("p"%char :: body) ++ post).
  { apply apply_rule_skip; try assumption; [simpl; tauto|].
    destruct (match_at (pat rule_e) (("p"%char :: body) ++ post))
      as [[gs n]|] eqn:Em; [exfalso|reflexivity].
    apply match_at_inv in Em as (segs & rest & Hbt & _ & _ & Hs).
    apply bt_sound in Hbt as [_ Hok].
    change (atoms (pat rule_e))
      with [Lit (str "print(" ++ [DQ]); Plus_not ":"; Lit (str "Error");
            Star_not ":"; Lit (str ": $e" ++ [DQ] ++ str ");")] in Hok.
    apply segs_cons in Hok as (l1 & segs1 & -> & H1 & Hok).
    apply segs_cons in Hok as (x & segs2 & -> & H2 & Hok).
    apply segs_cons in Hok as (l2 & segs3 & -> & H3 & Hok).
    apply segs_cons in Hok as (y & segs4 & -> & H4 & Hok).
    apply segs_cons in Hok as (l3 & segs5 & -> & H5 & Hok).
    apply segs_nil in Hok; subst segs5.
    apply seg_lit in H1, H3, H5; subst l1 l2 l3.
    assert (E : msg ++ [DQ] ++ str ");" ++ post =
                (x ++ str "Error" ++ y) ++ (str ": $e" ++ [DQ] ++ str ");") ++ rest).
    { apply (app_inv_head (str "print(" ++ [DQ])).
      transitivity (("p"%char :: body) ++ post); [unfold body|rewrite Hs]; text_eq. }
    rewrite E in Htail.
    assert (contains (str ": $e" ++ [DQ] ++ str ");")
              ((x ++ str "Error" ++ y) ++ (str ": $e" ++ [DQ] ++ str ");") ++ rest) = true)
      by (apply contains_iff; eauto).
    congruence. }
  assert (Hm : match_at (pat rule_f) (("p"%char :: body) ++ post) =
               Some ([msg], length ("p"%char :: body))).
  { assert (Hbt : bt (atoms (pat rule_f))
                    ((str "print(" ++ [DQ]) ++ msg ++ ([DQ] ++ str ");") ++ post) =
                  Some ([str "print(" ++ [DQ]; msg; [DQ] ++ str ");"], post)).
    { apply bt_lit, bt_plus_greedy; try assumption.
      - apply (span_stop DQ msg (str ");" ++ post) Hq).
      - apply (bt_lit ([DQ] ++ str ");") [] post); reflexivity. }
    replace (("p"%char :: body) ++ post)
      with ((str "print(" ++ [DQ]) ++ msg ++ ([DQ] ++ str ");") ++ post)
      by (unfold body; text_eq).
    unfold match_at; rewrite Hbt.
    cbn [groups pat rule_f length firstn skipn tl concat].
    rewrite !app_nil_r; do 2 f_equal;
      unfold body; rewrite !length_app; simpl; lia. }
  assert (Hf : apply_rule tag rule_f (pre ++ ("p"%char :: body) ++ post) =
               pre ++ expand (repl rule_f tag) [msg] ++ post)
    by (apply apply_rule_fire; try assumption; try (simpl; tauto); discriminate).
  assert (Hno : contains opener (pre ++ expand (repl rule_f tag) [msg] ++ post) = false)
    by (apply rewritten_no_opener; try assumption;
        [simpl; tauto|repeat constructor; assumption]).
  rewrite Hcontent; unfold substitute_prints.
  rewrite (Hskip rule_a [] _ ltac:(simpl; tauto) eq_refl).
  rewrite (Hskip rule_b [] _ ltac:(simpl; tauto) eq_refl).
  rewrite (Hskip rule_c (str "Error in ") _ ltac:(simpl; tauto) eq_refl).
  rewrite (Hskip rule_d [] _ ltac:(simpl; tauto) eq_refl).
  rewrite He, Hf.
  rewrite (apply_rule_no_opener tag rule_g) by (simpl; tauto || assumption).
  cbv beta iota delta [repl rule_f]; rewrite !expand_T, !expand_Ref.
  cbn [nth Nat.sub expand flat_map]; now rewrite <- !app_assoc.
Qed.

Lemma debug_print_becomes_logger_d_witness :
  substitute_prints
    (str "void f() { " ++ str "print('DEBUG: Error in save: $e');" ++ str " }")
    (str "AuthProvider") =
  str "void f() { " ++ str "Logger.d('AuthProvider', 'Error in save: $e');" ++ str " }".
Proof.
  apply (debug_print_becomes_logger_d (str "AuthProvider") (str "void f() { ")
           (str "Error in save: $e") (str " }"));
    try (vm_compute; reflexivity); try discriminate;
    unfold plain_tag; vm_compute; intuition discriminate.
Defined.

Lemma error_print_becomes_logger_e_witness :
  substitute_prints
    (str "try { run(); } catch (e) { " ++ str "print(" ++ [DQ]
     ++ str "Save Error" ++ str ": $e" ++ [DQ] ++ str ");" ++ str " }")
    (str "AuthProvider") =
  str "try { run(); } catch (e) { "
  ++ str "Logger.e('AuthProvider', 'Save Error', e);" ++ str " }".
Proof.
  apply (error_print_becomes_logger_e (str "AuthProvider")
           (str "try { run(); } catch (e) { ") (str "Save ") [] (str " }"));
    try (vm_compute; reflexivity); try discriminate;
    try (unfold plain_tag); vm_compute; intuition discriminate.
Defined.

Lemma plain_print_becomes_logger_d_witness :
  substitute_prints
    (str "void f() { " ++ str "print(" ++ [DQ] ++ str "Loading data" ++ [DQ]
     ++ str ");" ++ str " }")
    (str "AuthProvider") =
  str "void f() { " ++ str "Logger.d('AuthProvider', 'Loading data');" ++ str " }".
Proof.
  apply (plain_print_becomes_logger_d (str "AuthProvider") (str "void f() { ")
           (str "Loading data") (str " }"));
    try (vm_compute; reflexivity); try discriminate;
    try (unfold plain_tag); vm_compute; intuition discriminate.
Defined.

(** X7: on a file without any [print(], [replace_print_with_logger],
    called with a tag without backslash, still writes the file and prints
    its notice, and what it writes is the content it read. *)
Theorem no_print_call_same_content file_path log_tag content w :
  plain_tag log_tag ->
  files w file_path = Some content ->
  contains opener content = false ->
  replace_print_with_logger file_path log_tag w =
  Some (print (str "Replaced print statements in " ++ file_path)
          (write file_path content w)).
Proof.
  intros _ Hc Hno; unfold replace_print_with_logger, reading; rewrite Hc.
  now rewrite substitute_prints_no_opener.
Qed.

Lemma no_print_call_same_content_witness :
  let p := str "lib/models/user.dart" in
  let content := str "class User { final String name; }" in
  let w := world_of [(p, content)] in
  replace_print_with_logger p (str "User") w =
  Some (print (str "Replaced print statements in " ++ p) (write p content w)).
Proof.
  intros p content w.
  apply (no_print_call_same_content p (str "User") content w);
    [unfold plain_tag; vm_compute; intuition discriminate | reflexivity
    | reflexivity].
Defined.

(** ** Files the script touches *)

Section FrameFacts.

Implicit Types (w : world) (p q : path).

Lemma text_eqb_neq q p : q <> p -> text_eqb q p = false.
Proof.
  intros H; destruct (text_eqb q p) eqn:E; [|reflexivity].
  apply text_eqb_eq in E; contradiction.
Qed.

Lemma add_logger_import_frame p w w' q :
  add_logger_import p w = Some w' -> q <> p -> files w' q = files w q.
Proof.
  unfold add_logger_import, reading.
  destruct (files w p) as [content|]; [|discriminate].
  destruct (negb (contains logger_import content));
    [destruct (search import_re content) as [[[? ?] ?]|]|];
    intros H Hq; apply some_eq in H; subst w'; try reflexivity.
  cbn [files write print]; now rewrite text_eqb_neq.
Qed.

Lemma replace_print_with_logger_frame p tag w w' q :
  replace_print_with_logger p tag w = Some w' -> q <> p -> files w' q = files w q.
Proof.
  unfold replace_print_with_logger, reading.
  destruct (files w p) as [content|]; [|discriminate].
  intros H Hq; apply some_eq in H; subst w'.
  cbn [files write print]; now rewrite text_eqb_neq.
Qed.

Lemma process_file_other p w w' q :
  process_file p w = Some w' -> q <> p -> files w' q = files w q.
Proof.
  unfold process_file, and_then.
  destruct (add_logger_import p w) as [w1|] eqn:E; [|discriminate].
  intros H Hq.
  rewrite (replace_print_with_logger_frame _ _ _ _ q H Hq).
  now apply (add_logger_import_frame p).
Qed.

Lemma process_file_missing p w : exists_ p w = false -> process_file p w = None.
Proof.
  unfold exists_, process_file, and_then, add_logger_import, reading.
  now destruct (files w p).
Qed.

Lemma for_each_frame ps : forall w w' q,
  for_each process_file ps w = Some w' -> ~ In q ps -> files w' q = files w q.
Proof.
  induction ps as [|p ps IH]; intros w w' q; simpl.
  - now intros [= <-].
  - unfold and_then; destruct (process_file p w) as [w1|] eqn:E; [|discriminate].
    intros H Hq; rewrite (IH w1 w' q H) by tauto.
    apply (process_file_other p); [assumption|intros ->; tauto].
Qed.

(** The script is [process_file] run over the schedule. *)
Lemma script_schedule dart_files w :
  script dart_files w = for_each process_file (schedule w dart_files) w.
Proof.
  unfold script, schedule; rewrite for_each_app; unfold and_then.
  rewrite (first_loop w key_files w (same_files_refl w)).
  destruct (for_each process_file _ w); [apply second_loop|reflexivity].
Qed.

End FrameFacts.

(** X8: [process_file] raises on a missing file; on an existing one
    whose tag holds no backslash it returns, changes no other file and
    creates or removes none. *)
Theorem process_file_touches_one_file p w :
  (exists_ p w = false -> process_file p w = None) /\
  (exists_ p w = true -> plain_tag (get_log_tag_from_path p) ->
   exists w', process_file p w = Some w' /\
              (forall q, q <> p -> files w' q = files w q) /\
              (forall q, exists_ q w' = exists_ q w)).
Proof.
  split; [apply process_file_missing|].
  intros Hp _; destruct (process_file_runs p w Hp) as (w' & Hw & Hsame).
  exists w'; repeat split; [assumption| |exact Hsame].
  intros q Hq; now apply (process_file_other p).
Qed.

Lemma process_file_touches_one_file_witness :
  let w := world_of [(str "lib/a.dart", str "print('DEBUG: a');");
                     (str "lib/b.dart", str "print('DEBUG: b');")] in
  process_file (str "lib/missing.dart") w = None /\
  exists w', process_file (str "lib/a.dart") w = Some w' /\
             (forall q, q <> str "lib/a.dart" -> files w' q = files w q) /\
             (forall q, exists_ q w' = exists_ q w).
Proof.
  intros w; split.
  - apply (proj1 (process_file_touches_one_file (str "lib/missing.dart") w)).
    reflexivity.
  - apply (proj2 (process_file_touches_one_file (str "lib/a.dart") w)).
    + reflexivity.
    + unfold plain_tag; vm_compute; intuition discriminate.
Defined.

(** X9: when the script returns, every file outside the schedule holds
    what it held; in particular [lib/utils/logger.dart] is never
    modified. *)
Theorem script_leaves_other_files dart_files w w' :
  script dart_files w = Some w' ->
  (forall q, ~ In q (schedule w dart_files) -> files w' q = files w q) /\
  files w' (str "lib/utils/logger.dart") = files w (str "lib/utils/logger.dart").
Proof.
  rewrite script_schedule; intros H.
  assert (Hf : forall q, ~ In q (schedule w dart_files) -> files w' q = files w q)
    by (intros q Hq; now apply (for_each_frame (schedule w dart_files) w w')).
  split; [exact Hf|apply Hf].
  unfold schedule; rewrite in_app_iff, !filter_In; intros [[Hk _]|[_ Hs]].
  - revert Hk; vm_compute; intuition discriminate.
  - rewrite text_eqb_refl in Hs; discriminate.
Qed.

Lemma script_leaves_other_files_witness :
  let w := world_of [(str "lib/main.dart", str "print('DEBUG: start');");
                     (str "lib/utils/logger.dart", str "print('DEBUG: $m');");
                     (str "README.md", str "print('DEBUG: doc');")] in
  let dart_files := [str "lib/utils/logger.dart"; str "lib/main.dart"] in
  exists w',
    script dart_files w = Some w' /\
    files w' (str "lib/main.dart") = Some (str "Logger.d('Main', 'start');") /\
    files w' (str "README.md") = files w (str "README.md") /\
    files w' (str "lib/utils/logger.dart") = files w (str "lib/utils/logger.dart").
Proof.
  intros w dart_files.
  eexists; split; [reflexivity|split; [vm_compute; reflexivity|]].
  split.
  - refine (proj1 (script_leaves_other_files dart_files w _ eq_refl) _ _).
    vm_compute; intuition discriminate.
  - exact (proj2 (script_leaves_other_files dart_files w _ eq_refl)).
Defined.

(** X10: where no priority file exists and [glob] finds nothing but the
    logging module or priority paths, the script does nothing: no write,
    no output, the same world. *)
Theorem script_nothing_to_do dart_files w :
  Forall (fun p => exists_ p w = false) key_files ->
  Forall (fun p => p = str "lib/utils/logger.dart" \/ In p key_files) dart_files ->
  script dart_files w = Some w.
Proof.
  intros Hk Hd.
  assert (Hnil : forall (f : path -> bool) l,
             Forall (fun p => f p = false) l -> filter f l = [])
    by (induction 1 as [|p l Hp _ IH]; simpl; [|rewrite Hp]; auto).
  rewrite script_schedule; unfold schedule.
  rewrite (Hnil _ key_files Hk), Hnil; [reflexivity|].
  eapply Forall_impl; [|exact Hd]; intros p [->|Hp]; cbv beta.
  - now rewrite text_eqb_refl.
  - apply in_key_files_iff in Hp; now rewrite Hp, orb_true_r.
Qed.

Lemma script_nothing_to_do_witness :
  let w := world_of [(str "lib/utils/logger.dart", str "class Logger {}");
                     (str "pubspec.yaml", str "name: yetuga")] in
  script [str "lib/utils/logger.dart"] w = Some w.
Proof.
  intros w; apply (script_nothing_to_do [str "lib/utils/logger.dart"] w).
  - repeat constructor.
  - repeat constructor; now left.
Defined.

(** ** Characters of the tag *)

Section TagCharFacts.

Implicit Types (c : ascii) (s w : text).

Lemma rfind_none c s : rfind c s = None -> ~ In c s.
Proof.
  induction s as [|x s IH]; simpl; [tauto|].
  destruct (rfind c s); [discriminate|].
  destruct (Ascii.eqb_spec x c); [discriminate|].
  intros _ [H|H]; [congruence|now apply IH].
Qed.

Lemma rfind_after c s i : rfind c s = Some i -> ~ In c (skipn (S i) s).
Proof.
  revert i; induction s as [|x s IH]; intros i; simpl; [discriminate|].
  destruct (rfind c s) as [j|] eqn:E.
  - intros [= <-]; now apply IH.
  - destruct (Ascii.eqb x c); [|discriminate].
    intros [= <-]; now apply rfind_none.
Qed.

Lemma basename_no_slash p : ~ In "/"%char (basename p).
Proof.
  unfold basename; destruct (rfind "/" p) as [i|] eqn:E.
  - now apply rfind_after.
  - now apply rfind_none.
Qed.

Lemma splitext_root_incl p c : In c (splitext_root p) -> In c p.
Proof.
  unfold splitext_root; destruct (rfind "." p) as [d|]; [|tauto].
  match goal with |- context [if ?b then _ else _] => destruct b end; [|tauto].
  intros H; rewrite <- (firstn_skipn d p); apply in_or_app; now left.
Qed.

Lemma split_words sep s w :
  In w (split sep s) -> ~ In sep w /\ forall c, In c w -> In c s.
Proof.
  revert w; induction s as [|x s IH]; intros w; simpl.
  - intros [<-|[]]; split; simpl; tauto.
  - destruct (Ascii.eqb_spec x sep) as [->|Hx].
    + intros [<-|H]; [split; simpl; tauto|].
      destruct (IH w H) as [H1 H2]; split; [assumption|]; intros c Hc; right; auto.
    + destruct (split sep s) as [|w0 ws] eqn:E.
      * intros [<-|[]]; split; simpl; [intros [H|[]]; congruence|tauto].
      * intros [<-|H].
        -- destruct (IH w0 (or_introl eq_refl)) as [H1 H2]; split.
           ++ intros [H|H]; [congruence|tauto].
           ++ intros c [<-|Hc]; [now left|right; auto].
        -- destruct (IH w (or_intror H)) as [H1 H2]; split; [assumption|].
           intros c Hc; right; auto.
Qed.

(** The case mapping neither makes nor removes a slash, a dot or an
    underscore. *)
Lemma lower_keeps c x :
  In x [ "/"; "."; "_" ]%char -> (lower c = x <-> c = x).
Proof.
  intros [<-|[<-|[<-|[]]]];
    destruct c as [[] [] [] [] [] [] [] []]; vm_compute; split; congruence.
Qed.

Lemma upper_keeps c x :
  In x [ "/"; "."; "_" ]%char -> (upper c = x <-> c = x).
Proof.
  intros [<-|[<-|[<-|[]]]];
    destruct c as [[] [] [] [] [] [] [] []]; vm_compute; split; congruence.
Qed.

Lemma capitalize_keeps w x :
  In x [ "/"; "."; "_" ]%char -> In x (capitalize w) -> In x w.
Proof.
  intros Hx; destruct w as [|c w]; simpl; [tauto|].
  intros [H|H].
  - left; now apply (upper_keeps c x Hx).
  - right; apply in_map_iff in H as (y & Hy & Hin).
    apply (lower_keeps y x Hx) in Hy; now subst.
Qed.

End TagCharFacts.

(** X11: the tag of an ASCII path never holds a slash or an underscore. *)
Theorem tag_has_no_separator file_path :
  Forall (fun c => nat_of_ascii c < 128) file_path ->
  ~ In "/"%char (get_log_tag_from_path file_path) /\
  ~ In "_"%char (get_log_tag_from_path file_path).
Proof.
  intros _; unfold get_log_tag_from_path; split; intros H;
    apply in_concat in H as (cap & Hcap & Hc);
    apply in_map_iff in Hcap as (w & <- & Hw);
    apply capitalize_keeps in Hc; try (simpl; tauto);
    apply split_words in Hw as [Hsep Hin].
  - apply Hin, splitext_root_incl in Hc.
    now apply (basename_no_slash file_path).
  - contradiction.
Qed.

Lemma tag_has_no_separator_witness :
  ~ In "/"%char (get_log_tag_from_path (str "lib/ui/home_page.dart")) /\
  ~ In "_"%char (get_log_tag_from_path (str "lib/ui/home_page.dart")).
Proof.
  apply (tag_has_no_separator (str "lib/ui/home_page.dart")).
  repeat constructor; vm_compute; lia.
Defined.

Section TagCaseFacts.

Variable x : ascii.
Hypothesis Hx : In x [ "/"; "."; "_" ]%char.

Lemma eqb_lower c : Ascii.eqb (lower c) x = Ascii.eqb c x.
Proof.
  destruct (Ascii.eqb_spec c x) as [->|Hc].
  - apply Ascii.eqb_eq; now apply lower_keeps.
  - destruct (Ascii.eqb_spec (lower c) x) as [E|]; [|reflexivity].
    apply (lower_keeps c x Hx) in E; contradiction.
Qed.

Lemma rfind_lower s : rfind x (map lower s) = rfind x s.
Proof.
  induction s as [|c s IH]; simpl; [reflexivity|].
  now rewrite IH, eqb_lower.
Qed.

Lemma split_lower s : split x (map lower s) = map (map lower) (split x s).
Proof.
  induction s as [|c s IH]; simpl; [reflexivity|].
  rewrite eqb_lower, IH.
  destruct (Ascii.eqb c x); [reflexivity|].
  destruct (split x s); reflexivity.
Qed.

End TagCaseFacts.

Lemma basename_lower p : basename (map lower p) = map lower (basename p).
Proof.
  unfold basename; rewrite rfind_lower by (simpl; tauto).
  destruct (rfind "/" p); [apply skipn_map|reflexivity].
Qed.

Lemma splitext_root_lower p :
  splitext_root (map lower p) = map lower (splitext_root p).
Proof.
  unfold splitext_root.
  rewrite !rfind_lower by (simpl; tauto).
  destruct (rfind "." p) as [d|]; [|reflexivity].
  rewrite skipn_map, firstn_map, firstn_map.
  replace (existsb (fun c => negb (Ascii.eqb c "."))
             (map lower (firstn (d - match rfind "/" p with Some i => S i | None => 0 end)
                           (skipn match rfind "/" p with Some i => S i | None => 0 end p))))
    with (existsb (fun c => negb (Ascii.eqb c "."))
            (firstn (d - match rfind "/" p with Some i => S i | None => 0 end)
               (skipn match rfind "/" p with Some i => S i | None => 0 end p))).
  - now destruct (_ && _).
  - generalize (firstn (d - match rfind "/" p with Some i => S i | None => 0 end)
                  (skipn match rfind "/" p with Some i => S i | None => 0 end p)).
    induction l as [|c l IH]; simpl; [reflexivity|].
    rewrite IH, (eqb_lower "."); [reflexivity|simpl; tauto].
Qed.

Lemma capitalize_lower w : capitalize (map lower w) = capitalize w.
Proof.
  destruct w as [|c w]; simpl; [reflexivity|]; f_equal.
  - destruct c as [[] [] [] [] [] [] [] []]; vm_compute; reflexivity.
  - rewrite map_map; apply map_ext; intros a.
    destruct a as [[] [] [] [] [] [] [] []]; vm_compute; reflexivity.
Qed.

(** X12: the tag does not depend on the case of the letters of the path:
    an ASCII path and its lower-cased form get the same tag. *)
Theorem tag_ignores_case file_path :
  Forall (fun c => nat_of_ascii c < 128) file_path ->
  get_log_tag_from_path (map lower file_path) = get_log_tag_from_path file_path.
Proof.
  intros _; unfold get_log_tag_from_path.
  rewrite basename_lower, splitext_root_lower, split_lower by (simpl; tauto).
  rewrite map_map; f_equal; apply map_ext, capitalize_lower.
Qed.

Lemma tag_ignores_case_witness :
  get_log_tag_from_path (str "lib/url_helper.dart") =
  get_log_tag_from_path (str "lib/URL_Helper.dart").
Proof.
  apply (tag_ignores_case (str "lib/URL_Helper.dart")).
  repeat constructor; vm_compute; lia.
Defined.

(** ** The whole of [process_file] and of the script *)

Section ProcessFacts.

Implicit Types (w : world) (p q : path).

(** What [process_file] leaves in the file: the rules applied to what the
    import step left. *)
Lemma process_file_content p w content :
  content_after (add_logger_import p) p w = Some content ->
  content_after (process_file p) p w =
  Some (substitute_prints content (get_log_tag_from_path p)).
Proof.
  unfold content_after, process_file, and_then.
  destruct (add_logger_import p w) as [w1|]; [|discriminate].
  intros H; unfold replace_print_with_logger, reading; rewrite H.
  cbn [files write print]; now rewrite text_eqb_refl.
Qed.

(** The import step reads the file it is given and nothing else. *)
Lemma add_logger_import_local p w1 w2 :
  files w1 p = files w2 p ->
  content_after (add_logger_import p) p w1 = content_after (add_logger_import p) p w2.
Proof.
  intros H; unfold content_after, add_logger_import, reading; rewrite H.
  destruct (files w2 p) as [content|] eqn:E; [|reflexivity].
  destruct (negb (contains logger_import content));
    [destruct (search import_re content) as [[[? ?] ?]|]|];
    cbn [files write print]; rewrite ?text_eqb_refl; congruence.
Qed.

Lemma add_logger_import_missing p w :
  content_after (add_logger_import p) p w = None -> files w p = None.
Proof.
  unfold content_after, add_logger_import, reading.
  destruct (files w p) as [content|] eqn:E; [|reflexivity].
  destruct (negb (contains logger_import content));
    [destruct (search import_re content) as [[[? ?] ?]|]|];
    cbn [files write print]; rewrite ?text_eqb_refl; congruence.
Qed.

(** What [process_file] leaves in a file depends on that file only. *)
Lemma process_file_local p w1 w2 :
  files w1 p = files w2 p ->
  content_after (process_file p) p w1 = content_after (process_file p) p w2.
Proof.
  intros H; pose proof (add_logger_import_local p w1 w2 H) as Ha.
  destruct (content_after (add_logger_import p) p w2) as [c|] eqn:E.
  - now rewrite (process_file_content p w1 c Ha), (process_file_content p w2 c E).
  - apply add_logger_import_missing in Ha, E.
    unfold content_after.
    rewrite !process_file_missing; [reflexivity| |]; unfold exists_;
      [now rewrite E|now rewrite Ha].
Qed.

Lemma for_each_results ps : NoDup ps -> forall w w' p,
  for_each process_file ps w = Some w' -> In p ps ->
  files w' p = content_after (process_file p) p w.
Proof.
  induction 1 as [|q ps Hq Hnd IH]; intros w w' p; simpl; [tauto|].
  unfold and_then; destruct (process_file q w) as [w1|] eqn:E; [|discriminate].
  intros H [->|Hp].
  - rewrite (for_each_frame ps w1 w' p H Hq).
    unfold content_after; now rewrite E.
  - rewrite (IH w1 w' p H Hp).
    apply process_file_local, (process_file_other q); [assumption|].
    intros ->; contradiction.
Qed.

End ProcessFacts.

(** X13: end to end on a file with a first import statement and one DEBUG
    call: [process_file] leaves the file with the logging import after that
    statement and the call turned into [Logger.d] with the tag of the
    path, everything else kept. *)
Theorem process_file_end_to_end p w pre body mid msg post :
  let m := str "import " ++ body ++ str ";" ++ [NL] in
  let call := str "print('DEBUG: " ++ msg ++ str "');" in
  let tag := get_log_tag_from_path p in
  files w p = Some (pre ++ m ++ mid ++ call ++ post) ->
  plain_tag tag ->
  body <> [] -> ~ In ";"%char body ->
  contains (str "import ") pre = false ->
  contains m (mid ++ call ++ post) = false ->
  contains logger_import (pre ++ m ++ mid ++ call ++ post) = false ->
  msg <> [] -> ~ In "'"%char msg ->
  contains opener tag = false -> contains opener msg = false ->
  contains opener (pre ++ m ++ logger_import ++ [NL] ++ mid) = false ->
  contains opener post = false ->
  content_after (process_file p) p w =
  Some (pre ++ m ++ logger_import ++ [NL] ++ mid
        ++ str "Logger.d('" ++ tag ++ str "', '" ++ msg ++ str "');" ++ post).
Proof.
  intros m call tag Hc Hplain Hne Hb Hpre Hrest Hno Hmsg Hq Htag Hmo Hbefore Hpost.
  pose proof (first_import_gets_logger p w pre body (mid ++ call ++ post)
                Hc Hne Hb Hpre Hrest Hno) as Hi.
  rewrite (process_file_content p w _ Hi); f_equal.
  pose proof (debug_call_rewritten tag (pre ++ m ++ logger_import ++ [NL] ++ mid)
                msg post Hplain Hmsg Hq Htag Hmo Hbefore Hpost) as Hr.
  etransitivity; [|etransitivity; [exact Hr|]].
  - f_equal; unfold m, call; now rewrite <- ?app_assoc.
  - unfold m; now rewrite <- ?app_assoc.
Qed.

Lemma process_file_end_to_end_witness :
  let p := str "lib/providers/auth_provider.dart" in
  let w := world_of
             [(p, str "// auth" ++ [NL] ++ str "import 'dart:io';" ++ [NL]
                  ++ str "import 'user.dart';" ++ [NL] ++ str "void f() { "
                  ++ str "print('DEBUG: signed in');" ++ str " }" ++ [NL])] in
  content_after (process_file p) p w =
  Some (str "// auth" ++ [NL] ++ str "import 'dart:io';" ++ [NL]
        ++ logger_import ++ [NL]
        ++ str "import 'user.dart';" ++ [NL] ++ str "void f() { "
        ++ str "Logger.d('AuthProvider', 'signed in');" ++ str " }" ++ [NL]).
Proof.
  intros p w.
  apply (process_file_end_to_end p w (str "// auth" ++ [NL]) (str "'dart:io'")
           (str "import 'user.dart';" ++ [NL] ++ str "void f() { ")
           (str "signed in") (str " }" ++ [NL]));
    try (vm_compute; reflexivity); try discriminate;
    try (unfold plain_tag); vm_compute; intuition discriminate.
Defined.

(** X14: the files are processed independently: when the script returns,
    each scheduled file holds what [process_file] alone would have left in
    it, whatever the other files hold and in whatever order. *)
Theorem script_processes_independently dart_files w w' p :
  NoDup dart_files ->
  script dart_files w = Some w' ->
  In p (schedule w dart_files) ->
  files w' p = content_after (process_file p) p w.
Proof.
  intros Hnd Hs Hp; rewrite script_schedule in Hs.
  now apply (for_each_results (schedule w dart_files) (schedule_NoDup w dart_files Hnd) w w').
Qed.

Lemma script_processes_independently_witness :
  let w := world_of [(str "lib/main.dart", str "print('DEBUG: start');");
                     (str "lib/ui/home_page.dart", str "print('DEBUG: home');")] in
  let dart_files := [str "lib/ui/home_page.dart"; str "lib/main.dart"] in
  exists w',
    script dart_files w = Some w' /\
    files w' (str "lib/ui/home_page.dart") =
    content_after (process_file (str "lib/ui/home_page.dart"))
                  (str "lib/ui/home_page.dart") w.
Proof.
  intros w dart_files.
  eexists; split; [reflexivity|].
  apply (script_processes_independently dart_files w).
  - repeat constructor; simpl; intuition discriminate.
  - reflexivity.
  - vm_compute; right; left; reflexivity.
Defined.

(** * Running twice *)

(** ** Texts that hold no occurrence of a pattern *)

Section QuietFacts.

Variable P : text.
Implicit Types (o k u g a b : text).

Lemma contains_app_l a b : contains P (a ++ b) = false -> contains P a = false.
Proof.
  intros H; destruct (contains P a) eqn:E; [|reflexivity].
  apply contains_iff in E as (x & y & ->).
  rewrite <- H; symmetry; apply contains_iff.
  exists x, (y ++ b); now rewrite <- !app_assoc.
Qed.

Lemma contains_app_r a b : contains P (a ++ b) = false -> contains P b = false.
Proof.
  intros H; destruct (contains P b) eqn:E; [|reflexivity].
  apply contains_iff in E as (x & y & ->).
  rewrite <- H; symmetry; apply contains_iff.
  exists (a ++ x), y; now rewrite <- !app_assoc.
Qed.

Lemma quiet_nil k : quiet P [] k.
Proof.
  intros pre u H Hu; symmetry in H; apply app_eq_nil in H as [_ ->]; congruence.
Qed.

Lemma quiet_app a b k : quiet P a (b ++ k) -> quiet P b k -> quiet P (a ++ b) k.
Proof.
  intros Ha Hb pre u H Hu.
  apply app_eq_app in H as [l [[-> ->]|[-> ->]]].
  - destruct l as [|x l].
    + simpl in *; apply (Hb [] b); [reflexivity|assumption].
    + rewrite <- app_assoc; apply (Ha pre (x :: l)); [reflexivity|discriminate].
  - apply (Hb l u); [reflexivity|assumption].
Qed.

Lemma quiet_tail x o k : quiet P (x :: o) k -> quiet P o k.
Proof. intros H pre u -> Hu; now apply (H (x :: pre) u). Qed.

Lemma quiet_contains o : quiet P o [] -> P <> [] -> contains P o = false.
Proof.
  intros H HP; destruct (contains P o) eqn:E; [exfalso|reflexivity].
  apply contains_iff in E as (pre & post & ->).
  specialize (H pre (P ++ post) eq_refl).
  rewrite app_nil_r, startswith_app in H.
  assert (P ++ post <> []) by (destruct P; [congruence|discriminate]).
  now specialize (H ltac:(assumption)).
Qed.

Lemma contains_quiet o : contains P o = false -> quiet P o [].
Proof.
  intros H pre u -> Hu; rewrite app_nil_r.
  now apply (contains_false_suffix P pre u).
Qed.

(** Three texts in a row hold no [P] when none starts in any of them. *)
Lemma quiet_cat a m rest :
  P <> [] -> quiet P a (m ++ rest) -> quiet P m rest ->
  contains P rest = false -> contains P (a ++ m ++ rest) = false.
Proof.
  intros HP Ha Hm Hrest; apply quiet_contains; [|assumption].
  apply quiet_app; [now rewrite app_nil_r|].
  apply quiet_app; [now rewrite app_nil_r|now apply contains_quiet].
Qed.

(** A text without the first character of [P] starts no [P]. *)
Lemma quiet_first x P' a k : P = x :: P' -> ~ In x a -> quiet P a k.
Proof.
  intros -> Ha pre u -> Hu.
  destruct u as [|y u]; [congruence|].
  cbn [app startswith].
  destruct (Ascii.eqb_spec x y) as [<-|_]; [|reflexivity].
  exfalso; apply Ha, in_or_app; right; now left.
Qed.

(** A text without [P] starts none either, when the character after it
    is not one of [P]. *)
Lemma quiet_free g k :
  contains P g = false ->
  (forall c k', k = c :: k' -> ~ In c P) -> quiet P g k.
Proof.
  intros Hg Hc pre u -> Hu.
  destruct (startswith P (u ++ k)) eqn:E; [exfalso|reflexivity].
  apply startswith_app_cases in E as [E|(p2 & Hp & Hne & Hp2)].
  - now rewrite (contains_false_suffix _ _ _ Hg) in E.
  - destruct p2 as [|x p2]; [congruence|].
    destruct k as [|c k]; [discriminate|].
    apply startswith_head in Hp2; subst x.
    apply (Hc c k eq_refl); rewrite Hp; apply in_or_app; right; now left.
Qed.

(** Nor does a text without [P] whose last character is not one of [P]. *)
Lemma quiet_last g c k :
  contains P (g ++ [c]) = false -> ~ In c P -> quiet P (g ++ [c]) k.
Proof.
  intros Hg Hc pre u E Hu.
  destruct (startswith P (u ++ k)) eqn:Es; [exfalso|reflexivity].
  apply startswith_app_cases in Es as [Es|(p2 & Hp & Hne & Hp2)].
  - rewrite E in Hg; now rewrite (contains_false_suffix _ _ _ Hg) in Es.
  - destruct (exists_last Hu) as (u' & y & ->).
    rewrite app_assoc in E; apply app_inj_tail in E as [_ <-].
    apply Hc; rewrite Hp; apply in_or_app; left; apply in_or_app; right; now left.
Qed.

End QuietFacts.

Lemma inert_quiet o k : inert o k <-> quiet opener o k.
Proof. split; intros H; exact H. Qed.

(** ** Rewritten calls and the patterns of the script *)

Section FreeFacts.

Variables (P P' : text) (x : ascii).
Hypothesis HP : P = x :: P'.
Hypothesis HL : ~ In "L"%char P.
Hypothesis Hq : ~ In "'"%char P.
Hypothesis Hlit :
  forall l, In l [str "Logger.d('"; str "Logger.e('"; str "', '"; str "');";
                  str "', e);"] -> ~ In x l.

Variable tag : text.
Hypothesis Htag : contains P tag = false.

Lemma weave_ext (f g : print_call -> text) l :
  (forall c, f c = g c) -> weave f l = weave g l.
Proof.
  intros H; induction l as [|[c t] l IH]; simpl; [reflexivity|].
  now rewrite H, IH.
Qed.

Lemma migrated_first c : exists k, migrated tag c = "L"%char :: k.
Proof. destruct c; eexists; reflexivity. Qed.

Lemma ending_first c : exists k, ending c = "'"%char :: k.
Proof. destruct c; eexists; reflexivity. Qed.

(** No [P] starts inside a rewritten call. *)
Lemma migrated_quiet c k :
  contains P (message c) = false -> quiet P (migrated tag c) k.
Proof.
  intros Hm; unfold migrated.
  apply quiet_app; [|apply quiet_app; [|apply quiet_app; [|apply quiet_app]]].
  - apply (quiet_first P x P'); [assumption|].
    apply Hlit; destruct c; simpl; tauto.
  - apply quiet_free; [assumption|].
    intros c0 k' [= <- _]; assumption.
  - apply (quiet_first P x P'); [assumption|].
    apply Hlit; simpl; tauto.
  - apply quiet_free; [assumption|].
    destruct (ending_first c) as [e ->].
    intros c0 k' [= <- _]; assumption.
  - apply (quiet_first P x P'); [assumption|].
    apply Hlit; destruct c; simpl; tauto.
Qed.

Lemma quiet_before_migrated a c k :
  contains P a = false -> quiet P a (migrated tag c ++ k).
Proof.
  intros Ha; apply quiet_free; [assumption|].
  destruct (migrated_first c) as [m ->].
  intros c0 k' [= <- _]; assumption.
Qed.

Lemma P_nonempty : P <> [].
Proof. rewrite HP; discriminate. Qed.

(** Rewriting the calls of a text without [P] brings no [P]. *)
Lemma stage_free n l : forall a,
  contains P (a ++ weave source l) = false ->
  contains P (a ++ weave (stage n tag) l) = false.
Proof.
  induction l as [|[c t] l IH]; intros a H; [exact H|].
  cbn [weave] in *; unfold stage at 1.
  destruct (turn c <=? n).
  - apply quiet_cat; [apply P_nonempty| | |].
    + apply quiet_before_migrated; now apply contains_app_l in H.
    + apply migrated_quiet.
      apply contains_app_r, contains_app_l in H; unfold source in H.
      now apply contains_app_r, contains_app_l in H.
    + apply IH; apply contains_app_r in H; now apply contains_app_r in H.
  - rewrite !app_assoc; apply IH; now rewrite <- !app_assoc.
Qed.

(** Nor does building a text from rewritten calls and texts without [P]. *)
Lemma migrated_free l : forall a,
  contains P a = false ->
  Forall (fun ct => contains P (message (fst ct)) = false /\
                    contains P (snd ct) = false) l ->
  contains P (a ++ weave (migrated tag) l) = false.
Proof.
  induction l as [|[c t] l IH]; intros a Ha Hl.
  - simpl; now rewrite app_nil_r.
  - pose proof (Forall_inv Hl) as [Hm Ht].
    pose proof (Forall_inv_tail Hl) as Hl'; cbn [fst snd weave] in *.
    apply quiet_cat; [apply P_nonempty| | |].
    + now apply quiet_before_migrated.
    + now apply migrated_quiet.
    + now apply IH.
Qed.

End FreeFacts.

(** ** The rules over a text of calls *)

Section WeaveFacts.

Implicit Types (tag head t rest msg : text) (r : rule) (c : print_call).

(** No [print(] starts inside a rewritten call. *)
Lemma migrated_inert tag c k :
  contains opener tag = false -> contains opener (message c) = false ->
  inert (migrated tag c) k.
Proof.
  intros Htag Hm.
  apply (migrated_quiet opener (str "rint(") "p"); try assumption;
    try reflexivity; try literal_free; vm_compute; intuition discriminate.
Qed.

(** Nor inside a call to rewrite, after its first character. *)
Lemma source_inert c x body k :
  contains opener (message c) = false -> source c = x :: body -> inert body k.
Proof.
  intros Hm E.
  assert (Ho : exists o, opening c = "p"%char :: o /\ ~ In "p"%char o)
    by (destruct c; eexists; (split; [reflexivity|]);
        vm_compute; intuition discriminate).
  destruct Ho as (o & Eo & Hp).
  unfold source in E; rewrite Eo in E; injection E as <- <-.
  apply quiet_app; [|apply quiet_app].
  - now apply (quiet_first opener "p" (str "rint(")).
  - apply quiet_free; [assumption|].
    destruct c; intros c0 k' [= <- _]; vm_compute; intuition discriminate.
  - apply (quiet_first opener "p" (str "rint(")); [reflexivity|].
    destruct c; vm_compute; intuition discriminate.
Qed.

(** One rule over a text of calls: each call is rewritten or passed. *)
Lemma apply_rule_weave tag r (f g : print_call -> text) :
  In r rules ->
  (forall c, exists x k, f c = x :: k /\
     (~ In x opener \/ startswith opener (f c) = true)) ->
  (forall c t l, migratable ((c, t) :: l) ->
     (exists gs,
        match_at (pat r) (f c ++ t ++ weave f l) = Some (gs, length (f c)) /\
        expand (repl r tag) gs = g c) \/
     (g c = f c /\ match_at (pat r) (f c ++ t ++ weave f l) = None /\
      forall x body, f c = x :: body -> inert body (t ++ weave f l))) ->
  forall l head, migratable l -> contains opener head = false ->
    apply_rule tag r (head ++ weave f l) = head ++ weave g l.
Proof.
  intros Hr Hfirst Hstep; induction l as [|[c t] l IH]; intros head Hl Hhead.
  - simpl; rewrite app_nil_r; now apply apply_rule_no_opener.
  - pose proof (Hstep c t l Hl) as Hc.
    destruct Hl as (Hshape & Ht & Hl'); cbn [weave].
    destruct (Hfirst c) as (x & k & Ef & Hx).
    rewrite apply_rule_through; [f_equal|assumption|].
    + destruct Hc as [(gs & Hm & He)|(Hg & Hm & Hb)].
      * rewrite <- He; rewrite Ef in Hm |- *; cbn [app length] in Hm |- *.
        unfold apply_rule; rewrite (sub_match _ _ _ gs (length k) Hm).
        f_equal; cbn [skipn]; rewrite skipn_exact.
        now apply IH.
      * rewrite Hg; specialize (Hb x k Ef); rewrite Ef in Hm |- *.
        cbn [app] in Hm |- *.
        unfold apply_rule; rewrite (sub_no_match _ _ _ _ Hm); f_equal.
        fold (apply_rule tag r (k ++ t ++ weave f l)).
        rewrite apply_rule_through by assumption; f_equal.
        now apply IH.
    + destruct Hx as [Hx|Hx].
      * apply inert_free; [assumption|].
        rewrite Ef; intros c0 k' [= <- _]; assumption.
      * apply startswith_iff in Hx as [y ->]; rewrite <- app_assoc.
        now apply inert_before_opener.
Qed.

Lemma stage_first n tag c :
  exists x k, stage n tag c = x :: k /\
    (~ In x opener \/ startswith opener (stage n tag c) = true).
Proof.
  unfold stage; destruct (turn c <=? n).
  - destruct (migrated_first tag c) as [k ->]; exists "L"%char, k.
    split; [reflexivity|left; vm_compute; intuition discriminate].
  - destruct c; eexists; eexists; (split; [reflexivity|right; reflexivity]).
Qed.

(** A call that is rewritten already, or that the rule does not match, is
    passed. *)
Lemma stage_skips r tag n c rest :
  In r rules -> contains opener tag = false ->
  contains opener (message c) = false ->
  ((turn c <=? n) = false -> match_at (pat r) (source c ++ rest) = None) ->
  match_at (pat r) (stage n tag c ++ rest) = None /\
  forall x body, stage n tag c = x :: body -> inert body rest.
Proof.
  intros Hr Htag Hm Hsrc; unfold stage.
  destruct (turn c <=? n).
  - pose proof (migrated_inert tag c rest Htag Hm) as Hi.
    split.
    + destruct (match_at (pat r) (migrated tag c ++ rest)) eqn:E; [exfalso|reflexivity].
      assert (H : startswith opener (migrated tag c ++ rest) = true)
        by (apply (rule_opener r); congruence).
      destruct (migrated_first tag c) as [k Ek].
      rewrite (Hi [] (migrated tag c) eq_refl) in H; [discriminate|].
      rewrite Ek; discriminate.
    + intros x body E; rewrite E in Hi; now apply quiet_tail in Hi.
  - split; [now apply Hsrc|].
    intros x body E; now apply (source_inert c x).
Qed.

(** The rules for single-quoted calls pass the double-quoted ones. *)
Lemma single_quoted_passes r l p c rest :
  atoms (pat r) = Lit (str "print('DEBUG: " ++ l) :: p ->
  opening c = str "print(" ++ [DQ] ->
  match_at (pat r) (source c ++ rest) = None.
Proof.
  intros Hat Ho; apply (match_at_mismatch _ _ _ _ Hat).
  unfold source; rewrite Ho; reflexivity.
Qed.

Lemma expand_a tag msg :
  expand (repl rule_a tag) [msg] = migrated tag (Debug msg).
Proof.
  cbv beta iota delta [repl rule_a]; rewrite !expand_T, !expand_Ref.
  cbn [nth Nat.sub expand flat_map]; unfold migrated; cbn [logger_call message ending].
  now rewrite ?app_nil_r.
Qed.

Lemma expand_e tag g1 g2 :
  expand (repl rule_e tag) [g1 ++ str "Error" ++ g2] = migrated tag (Failure g1 g2).
Proof.
  cbv beta iota delta [repl rule_e]; rewrite !expand_T, !expand_Ref.
  cbn [nth Nat.sub expand flat_map]; unfold migrated; cbn [logger_call message ending].
  now rewrite ?app_nil_r.
Qed.

Lemma expand_f tag msg :
  expand (repl rule_f tag) [msg] = migrated tag (Plain msg).
Proof.
  cbv beta iota delta [repl rule_f]; rewrite !expand_T, !expand_Ref.
  cbn [nth Nat.sub expand flat_map]; unfold migrated; cbn [logger_call message ending].
  now rewrite ?app_nil_r.
Qed.

(** Rule (a) matches a DEBUG call, and nothing after it. *)
Lemma debug_matched msg rest :
  msg <> [] -> ~ In "'"%char msg ->
  match_at (pat rule_a) (source (Debug msg) ++ rest) =
  Some ([msg], length (source (Debug msg))).
Proof.
  intros Hne Hq.
  assert (Hbt : bt (atoms (pat rule_a))
                  (str "print('DEBUG: " ++ msg ++ str "');" ++ rest) =
                Some ([str "print('DEBUG: "; msg; str "');"], rest)).
  { apply bt_lit, bt_plus_greedy; try assumption.
    - apply (span_stop "'" msg (str ");" ++ rest) Hq).
    - apply (bt_lit (str "');") [] rest); reflexivity. }
  unfold match_at, source; cbn [opening message closing].
  rewrite <- !app_assoc, Hbt.
  cbn [groups pat rule_a length firstn skipn tl concat].
  now rewrite !app_nil_r.
Qed.

(** Rule (e) matches an error report, and nothing after it. *)
Lemma failure_matched g1 g2 rest :
  g1 <> [] -> ~ In ":"%char g1 -> ~ In ":"%char g2 ->
  match_at (pat rule_e) (source (Failure g1 g2) ++ rest) =
  Some ([g1 ++ str "Error" ++ g2], length (source (Failure g1 g2))).
Proof.
  intros Hne Hc1 Hc2.
  set (msg := g1 ++ str "Error" ++ g2).
  assert (Hcolon : ~ In ":"%char msg).
  { unfold msg; rewrite !in_app_iff; intros [H|[H|H]]; try contradiction.
    vm_compute in H; intuition discriminate. }
  pose proof (bt_complete (atoms (pat rule_e))
                [str "print(" ++ [DQ]; g1; str "Error"; g2; error_tail]
                ltac:(repeat constructor; assumption) rest) as Hsome.
  assert (Es : concat [str "print(" ++ [DQ]; g1; str "Error"; g2; error_tail]
               ++ rest = source (Failure g1 g2) ++ rest)
    by (unfold source; cbn [opening message closing]; text_eq).
  rewrite Es in Hsome.
  unfold match_at.
  destruct (bt (atoms (pat rule_e)) (source (Failure g1 g2) ++ rest))
    as [[segs rest']|] eqn:Ebt; [clear Hsome|congruence].
  apply bt_sound in Ebt as [Hs Hok].
  change (atoms (pat rule_e))
    with [Lit (str "print(" ++ [DQ]); Plus_not ":"; Lit (str "Error");
          Star_not ":"; Lit (str ": $e" ++ [DQ] ++ str ");")] in Hok.
  apply segs_cons in Hok as (l1 & segs1 & -> & H1 & Hok).
  apply segs_cons in Hok as (x & segs2 & -> & H2 & Hok).
  apply segs_cons in Hok as (l2 & segs3 & -> & H3 & Hok).
  apply segs_cons in Hok as (y & segs4 & -> & H4 & Hok).
  apply segs_cons in Hok as (l3 & segs5 & -> & H5 & Hok).
  apply segs_nil in Hok; subst segs5.
  apply seg_lit in H1, H3, H5; subst l1 l2 l3.
  apply seg_plus in H2 as [Hnx Hcx]; apply seg_star in H4.
  assert (E : (x ++ str "Error" ++ y) ++ ":"%char :: (str " $e" ++ [DQ] ++ str ");" ++ rest') =
              msg ++ ":"%char :: (str " $e" ++ [DQ] ++ str ");" ++ rest)).
  { apply (app_inv_head (str "print(" ++ [DQ])).
    transitivity (source (Failure g1 g2) ++ rest);
      [rewrite Hs|unfold source, msg; cbn [opening message closing]]; text_eq. }
  apply split_at_first in E as [Exy Er]; [|idtac|assumption].
  - apply app_inv_head in Er.
    cbn [groups pat rule_e length firstn skipn tl concat].
    rewrite !app_nil_r, Exy; apply f_equal, f_equal.
    unfold source; cbn [opening message closing]; fold msg.
    rewrite <- Exy, !length_app; simpl; lia.
  - rewrite !in_app_iff; intros [H|[H|H]]; try contradiction.
    vm_compute in H; intuition discriminate.
Qed.

(** Rule (f) matches a plain call, and nothing after it. *)
Lemma plain_matched msg rest :
  msg <> [] -> ~ In DQ msg ->
  match_at (pat rule_f) (source (Plain msg) ++ rest) =
  Some ([msg], length (source (Plain msg))).
Proof.
  intros Hne Hq.
  assert (Hbt : bt (atoms (pat rule_f))
                  ((str "print(" ++ [DQ]) ++ msg ++ ([DQ] ++ str ");") ++ rest) =
                Some ([str "print(" ++ [DQ]; msg; [DQ] ++ str ");"], rest)).
  { apply bt_lit, bt_plus_greedy; try assumption.
    - apply (span_stop DQ msg (str ");" ++ rest) Hq).
    - apply (bt_lit ([DQ] ++ str ");") [] rest); reflexivity. }
  replace (source (Plain msg) ++ rest)
    with ((str "print(" ++ [DQ]) ++ msg ++ ([DQ] ++ str ");") ++ rest)
    by (unfold source; cbn [opening message closing]; text_eq).
  unfold match_at; rewrite Hbt.
  cbn [groups pat rule_f length firstn skipn tl concat].
  rewrite !app_nil_r; apply f_equal, f_equal.
  unfold source; cbn [opening message closing]; rewrite !length_app; simpl; lia.
Qed.

(** Rule (e) passes a plain call that no [: $eQ);] follows. *)
Lemma plain_not_failure msg rest :
  contains error_tail (msg ++ [DQ] ++ str ");" ++ rest) = false ->
  match_at (pat rule_e) (source (Plain msg) ++ rest) = None.
Proof.
  intros Htail.
  destruct (match_at (pat rule_e) (source (Plain msg) ++ rest))
    as [[gs n]|] eqn:Em; [exfalso|reflexivity].
  apply match_at_inv in Em as (segs & rest' & Hbt & _ & _ & Hs).
  apply bt_sound in Hbt as [_ Hok].
  change (atoms (pat rule_e))
    with [Lit (str "print(" ++ [DQ]); Plus_not ":"; Lit (str "Error");
          Star_not ":"; Lit error_tail] in Hok.
  apply segs_cons in Hok as (l1 & segs1 & -> & H1 & Hok).
  apply segs_cons in Hok as (x & segs2 & -> & H2 & Hok).
  apply segs_cons in Hok as (l2 & segs3 & -> & H3 & Hok).
  apply segs_cons in Hok as (y & segs4 & -> & H4 & Hok).
  apply segs_cons in Hok as (l3 & segs5 & -> & H5 & Hok).
  apply segs_nil in Hok; subst segs5.
  apply seg_lit in H1, H3, H5; subst l1 l2 l3.
  assert (E : msg ++ [DQ] ++ str ");" ++ rest =
              (x ++ str "Error" ++ y) ++ error_tail ++ rest').
  { apply (app_inv_head (str "print(" ++ [DQ])).
    transitivity (source (Plain msg) ++ rest);
      [unfold source; cbn [opening message closing]|rewrite Hs]; text_eq. }
  rewrite E in Htail.
  assert (contains error_tail ((x ++ str "Error" ++ y) ++ error_tail ++ rest') = true)
    by (apply contains_iff; eauto).
  congruence.
Qed.

Section Pass.

Variable tag : text.
Hypothesis Htag : contains opener tag = false.
Hypothesis Htail : contains error_tail tag = false.

Variables (l : list (print_call * text)) (head : text).
Hypothesis Hl : migratable l.
Hypothesis Hhead : contains opener head = false.

Lemma pass_a :
  apply_rule tag rule_a (head ++ weave (stage 0 tag) l) = head ++ weave (stage 1 tag) l.
Proof.
  apply apply_rule_weave; try assumption; [simpl; tauto|apply stage_first|].
  intros c t l' ((Hm & Hc) & _ & _).
  destruct c as [msg|g1 g2|msg].
  - left; exists [msg]; split; [now apply debug_matched|apply expand_a].
  - right; split; [reflexivity|].
    apply stage_skips; try assumption; [simpl; tauto|].
    intros _; now apply (single_quoted_passes rule_a [] _ _ _ eq_refl).
  - right; split; [reflexivity|].
    apply stage_skips; try assumption; [simpl; tauto|].
    intros _; now apply (single_quoted_passes rule_a [] _ _ _ eq_refl).
Qed.

Lemma pass_bcd r li p :
  In r [rule_b; rule_c; rule_d] ->
  atoms (pat r) = Lit (str "print('DEBUG: " ++ li) :: p ->
  apply_rule tag r (head ++ weave (stage 1 tag) l) = head ++ weave (stage 1 tag) l.
Proof.
  intros Hr Hat.
  assert (Hin : In r rules) by (simpl in *; tauto).
  apply apply_rule_weave; try assumption; [apply stage_first|].
  intros c t l' ((Hm & Hc) & _ & _).
  right; split; [reflexivity|].
  apply stage_skips; try assumption.
  destruct c; [discriminate| |]; intros _;
    now apply (single_quoted_passes r li p).
Qed.

Lemma pass_e :
  apply_rule tag rule_e (head ++ weave (stage 1 tag) l) = head ++ weave (stage 2 tag) l.
Proof.
  apply apply_rule_weave; try assumption; [simpl; tauto|apply stage_first|].
  intros c t l' ((Hm & Hc) & _ & Hl').
  destruct c as [msg|g1 g2|msg].
  - right; split; [reflexivity|].
    apply stage_skips; try assumption; [simpl; tauto|discriminate].
  - left; exists [g1 ++ str "Error" ++ g2]; split; [|apply expand_e].
    destruct Hc as (? & ? & ?); now apply failure_matched.
  - right; split; [reflexivity|].
    apply stage_skips; try assumption; [simpl; tauto|].
    intros _; destruct Hc as (_ & _ & Hc).
    apply plain_not_failure.
    replace (msg ++ [DQ] ++ str ");" ++ t ++ weave (stage 1 tag) l')
      with ((msg ++ [DQ] ++ str ");" ++ t) ++ weave (stage 1 tag) l')
      by now rewrite <- !app_assoc.
    apply (stage_free error_tail (str " $e" ++ [DQ] ++ str ");") ":");
      try assumption; try reflexivity; try literal_free;
      try (vm_compute; intuition discriminate).
    now rewrite <- !app_assoc.
Qed.

Lemma pass_f :
  apply_rule tag rule_f (head ++ weave (stage 2 tag) l) = head ++ weave (stage 3 tag) l.
Proof.
  apply apply_rule_weave; try assumption; [simpl; tauto|apply stage_first|].
  intros c t l' ((Hm & Hc) & _ & Hl').
  destruct c as [msg|g1 g2|msg].
  - right; split; [reflexivity|].
    apply stage_skips; try assumption; [simpl; tauto|discriminate].
  - right; split; [reflexivity|].
    apply stage_skips; try assumption; [simpl; tauto|discriminate].
  - left; exists [msg]; split; [|apply expand_f].
    destruct Hc as (? & ? & ?); now apply plain_matched.
Qed.

Lemma pass_g :
  apply_rule tag rule_g (head ++ weave (stage 3 tag) l) = head ++ weave (stage 3 tag) l.
Proof.
  apply apply_rule_weave; try assumption; [simpl; tauto|apply stage_first|].
  intros c t l' ((Hm & Hc) & _ & Hl').
  right; split; [reflexivity|].
  apply stage_skips; try assumption; [simpl; tauto|].
  destruct c; discriminate.
Qed.

(** The pass rewrites every call of the text and keeps what is between. *)
Lemma calls_rewritten :
  substitute_prints (head ++ weave source l) tag = head ++ weave (migrated tag) l.
Proof.
  rewrite (weave_ext source (stage 0 tag)) by (intros c; now destruct c).
  rewrite (weave_ext (migrated tag) (stage 3 tag)) by (intros c; now destruct c).
  unfold substitute_prints.
  rewrite pass_a.
  rewrite (pass_bcd rule_b [] _ ltac:(simpl; tauto) eq_refl).
  rewrite (pass_bcd rule_c (str "Error in ") _ ltac:(simpl; tauto) eq_refl).
  rewrite (pass_bcd rule_d [] _ ltac:(simpl; tauto) eq_refl).
  now rewrite pass_e, pass_f, pass_g.
Qed.

End Pass.

Lemma migratable_free l :
  migratable l ->
  Forall (fun ct => contains opener (message (fst ct)) = false /\
                    contains opener (snd ct) = false) l.
Proof.
  induction l as [|[c t] l IH]; [constructor|].
  intros ((Hm & _) & Ht & Hl); constructor; [split; assumption|now apply IH].
Qed.

(** What the pass leaves holds no [print(]. *)
Lemma rewritten_free tag l head :
  contains opener tag = false -> migratable l -> contains opener head = false ->
  contains opener (head ++ weave (migrated tag) l) = false.
Proof.
  intros Htag Hl Hhead.
  apply (migrated_free opener (str "rint(") "p"); try assumption;
    try reflexivity; try literal_free; try (vm_compute; intuition discriminate).
  now apply migratable_free.
Qed.

End WeaveFacts.

(** ** From the first run to the second *)

Section TwiceFacts.

Implicit Types (w : world) (p q : path) (tag head rest content : text).

(** A text without [print(] holds no match of any pattern. *)
Lemma no_opener_no_match content :
  contains opener content = false ->
  Forall (fun r => search (pat r) content = None) rules.
Proof.
  intros Hc; apply Forall_forall; intros r Hr.
  apply search_none; intros pre u ->.
  destruct (match_at (pat r) u) eqn:E; [|reflexivity].
  assert (Hu : startswith opener u = true) by (apply (rule_opener r); congruence).
  now rewrite (contains_false_suffix _ _ _ Hc) in Hu.
Qed.

(** A text without [import ] holds no import statement. *)
Lemma no_import_no_line content :
  contains (str "import ") content = false -> search import_re content = None.
Proof.
  intros Hc; destruct (search import_re content) eqn:E; [exfalso|reflexivity].
  assert (H : import_line content) by (apply import_line_search; congruence).
  destruct H as (pre & body & post & _ & _ & ->).
  assert (contains (str "import ")
            (pre ++ str "import " ++ body ++ str ";" ++ [NL] ++ post) = true)
    by (apply contains_iff; eauto).
  congruence.
Qed.

(** A second run changes no file when the first one left a text that the
    rules keep and the import step skips. *)
Lemma settled_fixed_point p w content :
  content_after (process_file p) p w = Some content ->
  substitute_prints content (get_log_tag_from_path p) = content ->
  contains logger_import content = true \/ search import_re content = None ->
  forall q,
    content_after (process_file p ;; process_file p) q w =
    content_after (process_file p) q w.
Proof.
  intros Hrun Hsub Himp q.
  unfold content_after, and_then in *.
  destruct (process_file p w) as [w1|]; [|reflexivity].
  assert (Hskip : add_logger_import p w1 = Some w1)
    by now apply (add_logger_import_skips p content).
  unfold process_file, and_then; rewrite Hskip.
  unfold replace_print_with_logger, reading; rewrite Hrun, Hsub.
  cbn [files write print].
  destruct (text_eqb q p) eqn:E; [|reflexivity].
  apply text_eqb_eq in E; now subst q.
Qed.

(** What the import step makes of a file whose imports come first. *)
Lemma import_step_head p w tag head rest head' :
  files w p = Some (head ++ rest) ->
  head_after_import tag head rest head' ->
  content_after (add_logger_import p) p w = Some (head' ++ rest).
Proof.
  intros Hc [Hthere|pre body post Eh Hne Hb Hpre Hrest Hno|Hfree _].
  - unfold content_after.
    rewrite (add_logger_import_skips p (head ++ rest)); [assumption|assumption|].
    left; apply contains_iff in Hthere as (a & b & ->).
    apply contains_iff; exists a, (b ++ rest); now rewrite <- !app_assoc.
  - assert (E : head ++ rest =
                pre ++ (str "import " ++ body ++ str ";" ++ [NL]) ++ post ++ rest)
      by (rewrite Eh; now rewrite <- !app_assoc).
    rewrite E in Hc, Hno.
    rewrite (first_import_gets_logger p w pre body (post ++ rest)
               Hc Hne Hb Hpre Hrest Hno).
    now rewrite <- !app_assoc.
  - unfold content_after.
    rewrite (add_logger_import_skips p (head ++ rest)); [assumption|assumption|].
    right; now apply no_import_no_line.
Qed.

(** The head the import step leaves holds no [print(] either. *)
Lemma head_after_import_free tag head rest head' :
  head_after_import tag head rest head' ->
  contains opener head = false -> contains opener head' = false.
Proof.
  intros [Hthere|pre body post -> Hne Hb Hpre Hrest Hno|Hfree _] Hh;
    try assumption.
  replace (pre ++ str "import " ++ body ++ str ";" ++ [NL] ++ logger_import
           ++ [NL] ++ post)
    with (((pre ++ str "import " ++ body ++ str ";") ++ [NL])
          ++ (logger_import ++ [NL]) ++ post)
    by now rewrite <- !app_assoc.
  replace (pre ++ str "import " ++ body ++ str ";" ++ [NL] ++ post)
    with (((pre ++ str "import " ++ body ++ str ";") ++ [NL]) ++ post) in Hh
    by now rewrite <- !app_assoc.
  apply quiet_cat; [discriminate| | |now apply contains_app_r in Hh].
  - apply quiet_last; [now apply contains_app_l in Hh|].
    vm_compute; intuition discriminate.
  - apply quiet_last; [reflexivity|vm_compute; intuition discriminate].
Qed.

(** After the first run the import step has nothing left to do. *)
Lemma head_after_import_settled tag head calls head' :
  head_after_import tag head (weave source calls) head' ->
  contains logger_import (head' ++ weave (migrated tag) calls) = true \/
  search import_re (head' ++ weave (migrated tag) calls) = None.
Proof.
  intros [Hthere|pre body post -> Hne Hb Hpre Hrest Hno|Hfree Htag].
  - left; apply contains_iff in Hthere as (a & b & ->).
    apply contains_iff; exists a, (b ++ weave (migrated tag) calls).
    now rewrite <- !app_assoc.
  - left; apply contains_iff.
    exists (pre ++ str "import " ++ body ++ str ";" ++ [NL]),
           ([NL] ++ post ++ weave (migrated tag) calls).
    now rewrite <- !app_assoc.
  - right; apply no_import_no_line.
    rewrite (weave_ext (migrated tag) (stage 3 tag)) by (intros c; now destruct c).
    apply (stage_free (str "import ") (str "mport ") "i");
      try assumption; try reflexivity; try literal_free;
      vm_compute; intuition discriminate.
Qed.

End TwiceFacts.

(** ** The second run *)



